(** * Adobe CMap support of pdfminer ([pdfminer/cmapdb.py]) in Rocq

    A shallow embedding of the code-to-CID trie ([CMap], [FileCMap],
    [IdentityCMap]), of the CID-to-Unicode table ([UnicodeMap],
    [FileUnicodeMap]), of the bfrange heuristics of [CMapParser]
    ([verify_char_set], [fill_cmap_by_ranges], [is_subset_of_ranges],
    [fixup_cmaps]) and of the keyword handlers that feed them, together
    with the properties the specification states about them.

    Python integers are [Z]; a byte string ([str]) is a [list byte];
    a dictionary is a [gmap]; an exception is a [Raise] in the [result]
    monad. *)

From Stdlib Require Import ZArith Lia.
From Stdlib.Strings Require Import Byte.
From stdpp Require Import gmap strings list fin_maps sorting.

Local Open Scope Z_scope.
Set Warnings "-register-all,-clear-no-such-hyp".

#[global] Instance byte_eq_decision : EqDecision byte := Byte.byte_eq_dec.

(** ** Python run-time model *)

Module Py.

(** The exceptions the modelled code can raise. [StructError] is
    [struct.error]; [CMapNotFound] is [CMapDB.CMapNotFound]. *)
Inductive exn :=
| TypeError | IndexError | KeyError | ValueError | StructError
| AssertionError | CMapNotFound.

Inductive result (A : Type) :=
| Ok (a : A)
| Raise (e : exn).
Arguments Ok {A} a.
Arguments Raise {A} e.

#[global] Instance result_ret : MRet result := fun _ a => Ok a.
#[global] Instance result_bind : MBind result := fun _ _ f m =>
  match m with Ok a => f a | Raise e => Raise e end.
#[global] Instance result_fmap : FMap result := fun _ _ f m =>
  match m with Ok a => Ok (f a) | Raise e => Raise e end.

(** [for x in xs: st = body(x, st)], stopping at the first exception. *)
Fixpoint for_each {A S : Type} (body : A -> S -> result S)
    (xs : list A) (st : S) : result S :=
  match xs with
  | [] => Ok st
  | x :: xs' => st' ← body x st; for_each body xs' st'
  end.

(** [ord(c)] of a one-character [str]. *)
Definition ord (c : byte) : Z := Z.of_N (Byte.to_N c).

(** [s[-n:]] for [n > 0]: the last [n] items, all of [s] when it is shorter. *)
Definition last_n {A} (n : nat) (s : list A) : list A :=
  drop (length s - n)%nat s.

(** [s[:-n]] for [n > 0]: all but the last [n] items. *)
Definition but_last_n {A} (n : nat) (s : list A) : list A :=
  take (length s - n)%nat s.

(** [s[-vlen:]] where [vlen] is a variable: Python reads [s[-0:]] as
    [s[0:]], the whole of [s]. *)
Definition neg_slice_from {A} (vlen : nat) (s : list A) : list A :=
  match vlen with
  | O => s
  | _ => last_n vlen s
  end.

(** [s[:-1]] and [s[-1]] together; [None] when [s[-1]] raises
    [IndexError]. *)
Fixpoint split_last {A} (s : list A) : option (list A * A) :=
  match s with
  | [] => None
  | [x] => Some ([], x)
  | x :: s' =>
      match split_last s' with
      | Some (i, l) => Some (x :: i, l)
      | None => None
      end
  end.

(** [range(a, b)]: the integers [a <= i < b] in increasing order. *)
Definition range (a b : Z) : list Z :=
  (fun i : nat => a + Z.of_nat i) <$> seq 0 (Z.to_nat (b - a)).

(** [xrange(n)]. *)
Definition xrange (n : Z) : list Z := range 0 n.

(** Big-endian bytes of [v], [n] of them (low [8*n] bits). *)
Fixpoint be_bytes (n : nat) (v : Z) : list byte :=
  match n with
  | O => []
  | S n' =>
      be_bytes n' (v / 256)
      ++ [default x00 (Byte.of_N (Z.to_N (v mod 256)))]
  end.

(** Big-endian value of a byte string. *)
Definition be_value (s : list byte) : Z :=
  foldl (fun acc c => acc * 256 + ord c) 0 s.

(** [struct.pack('>L', v)]: [struct.error] outside [0 .. 2^32-1]. *)
Definition pack_L (v : Z) : result (list byte) :=
  if bool_decide (0 <= v < 2 ^ 32) then Ok (be_bytes 4 v)
  else Raise StructError.

(** The [n] big-endian 16-bit values of a string of [2n] bytes. *)
Fixpoint be16_values (s : list byte) : list Z :=
  match s with
  | hi :: lo :: s' => (ord hi * 256 + ord lo) :: be16_values s'
  | _ => []
  end.

(** [struct.unpack('>%dH' % n, s)]: the string must have exactly the
    size of the format, [2n] bytes, or [struct.error] is raised. *)
Definition unpack_H (n : nat) (s : list byte) : result (list Z) :=
  if bool_decide (length s = (2 * n)%nat) then Ok (be16_values s)
  else Raise StructError.

(** [sys.maxunicode] of a UCS-4 build; [unichr] accepts [0 .. maxunicode]. *)
Definition maxunicode : Z := 0x10ffff.

(** [sorted(xs, key=key)]: Python's sort is stable, so the result is
    the insertion of each item before the first later item with a
    key that is not smaller. *)
Fixpoint insert_by {A} (key : A -> Z) (x : A) (xs : list A) : list A :=
  match xs with
  | [] => [x]
  | y :: ys =>
      if bool_decide (key x <= key y) then x :: y :: ys
      else y :: insert_by key x ys
  end.

Definition sorted {A} (key : A -> Z) (xs : list A) : list A :=
  foldr (insert_by key) [] xs.

End Py.
Import Py.

(** Modelled from the spec: [utils.nunpack] is not among the sources; the
    spec calls its result the numeric value of the byte string, read
    big-endian as [struct.pack('>L', _)] writes it. The callers below
    pass it strings of any length; the theorems that depend on the value
    are stated for at most four bytes, the width of ['>L']. *)
Definition nunpack (s : list byte) : Z := be_value s.

(** Modelled from the spec: [utils.choplist] is not among the sources;
    the spec has the handlers drain the stack in groups of [n], an
    incomplete last group being left out. *)
Fixpoint choplist_fuel {A} (fuel n : nat) (seq : list A) : list (list A) :=
  match fuel with
  | O => []
  | S fuel' =>
      if bool_decide (n <= length seq)%nat
      then take n seq :: choplist_fuel fuel' n (drop n seq)
      else []
  end.

Definition choplist {A} (n : nat) (seq : list A) : list (list A) :=
  match n with
  | O => []
  | _ => choplist_fuel (length seq) n seq
  end.

(** ** The Unicode block table *)

(** [unicode_charset_map]: the bounds [(low, high)] of each block, in the
    order of the source; the third component, the label, is never read. *)
Definition unicode_charset_map : list (Z * Z) :=
  [
    (0x0000, 0x007f); (0x0080, 0x00ff); (0x0100, 0x017f); (0x0180, 0x024f);
    (0x0250, 0x02af); (0x02b0, 0x02ff); (0x0300, 0x036f); (0x0370, 0x03ff);
    (0x0400, 0x04ff); (0x0500, 0x052f); (0x0530, 0x058f); (0x0590, 0x05ff);
    (0x0600, 0x06ff); (0x0700, 0x074f); (0x0750, 0x077f); (0x0780, 0x07bf);
    (0x07c0, 0x077f); (0x0800, 0x085f); (0x0860, 0x087f); (0x0880, 0x08af);
    (0x0900, 0x097f); (0x0980, 0x09ff); (0x0a00, 0x0a7f); (0x0a80, 0x0aff);
    (0x0b00, 0x0b7f); (0x0b80, 0x0bff); (0x0c00, 0x0c7f); (0x0c80, 0x0cff);
    (0x0d00, 0x0d7f); (0x0d80, 0x0dff); (0x0e00, 0x0e7f); (0x0e80, 0x0eff);
    (0x0f00, 0x0fff); (0x1000, 0x109f); (0x10a0, 0x10ff); (0x1100, 0x11ff);
    (0x1200, 0x137f); (0x1380, 0x139f); (0x13a0, 0x13ff); (0x1400, 0x167f);
    (0x1680, 0x169f); (0x16a0, 0x16ff); (0x1700, 0x171f); (0x1720, 0x173f);
    (0x1740, 0x175f); (0x1760, 0x177f); (0x1780, 0x17ff); (0x1800, 0x18af);
    (0x18b0, 0x18ff); (0x1900, 0x194f); (0x1950, 0x197f); (0x1980, 0x19df);
    (0x19e0, 0x19ff); (0x1a00, 0x1a1f); (0x1a20, 0x1a5f); (0x1a80, 0x1aef);
    (0x1b00, 0x1b7f); (0x1b80, 0x1bb0); (0x1bc0, 0x1bff); (0x1c00, 0x1c4f);
    (0x1c50, 0x1c7f); (0x1c80, 0x1cdf); (0x1d00, 0x1d7f); (0x1d80, 0x1dbf);
    (0x1dc0, 0x1dff); (0x1e00, 0x1eff); (0x1f00, 0x1fff); (0x2000, 0x206f);
    (0x2070, 0x209f); (0x20a0, 0x20cf); (0x20d0, 0x20ff); (0x2100, 0x214f);
    (0x2150, 0x218f); (0x2190, 0x21ff); (0x2200, 0x22ff); (0x2300, 0x23ff);
    (0x2400, 0x243f); (0x2440, 0x245f); (0x2460, 0x24ff); (0x2500, 0x257f);
    (0x2580, 0x259f); (0x25a0, 0x25ff); (0x2600, 0x26ff); (0x2700, 0x27bf);
    (0x27c0, 0x27ef); (0x27f0, 0x27ff); (0x2800, 0x28ff); (0x2900, 0x297f);
    (0x2980, 0x29ff); (0x2a00, 0x2aff); (0x2b00, 0x2bff); (0x2c00, 0x2c5f);
    (0x2c60, 0x2c7f); (0x2c80, 0x2cff); (0x2d00, 0x2d2f); (0x2d30, 0x2d7f);
    (0x2d80, 0x2ddf); (0x2e00, 0x2e7f); (0x2e80, 0x2eff); (0x2f00, 0x2fdf);
    (0x2ff0, 0x2fff); (0x3000, 0x303f); (0x3040, 0x309f); (0x30a0, 0x30ff);
    (0x3100, 0x312f); (0x3130, 0x318f); (0x3190, 0x319f); (0x31a0, 0x31bf);
    (0x31c0, 0x31ef); (0x31f0, 0x31ff); (0x3200, 0x32ff); (0x3300, 0x33ff);
    (0x3400, 0x4dbf); (0x4dc0, 0x4dff); (0x4e00, 0x9fbf); (0xa000, 0xa48f);
    (0xa490, 0xa4cf); (0xa500, 0xa61f); (0xa660, 0xa6ff); (0xa700, 0xa71f);
    (0xa720, 0xa7ff); (0xa800, 0xa82f); (0xa840, 0xa87f); (0xa880, 0xa8df);
    (0xa900, 0xa97f); (0xa980, 0xa9df); (0xaa00, 0xaa3f); (0xaa40, 0xaa6f);
    (0xaa80, 0xaadf); (0xab00, 0xab5f); (0xab80, 0xaba0); (0xac00, 0xd7af);
    (0xd800, 0xdbff); (0xdc00, 0xdfff); (0xe000, 0xf8ff); (0xf900, 0xfaff);
    (0xfb00, 0xfb4f); (0xfb50, 0xfdff); (0xfe00, 0xfe0f); (0xfe10, 0xfe1f);
    (0xfe20, 0xfe2f); (0xfe30, 0xfe4f); (0xfe50, 0xfe6f); (0xfe70, 0xfeff);
    (0xff00, 0xffef); (0xfff0, 0xffff)
  ].

Fixpoint find_charset (code : Z) (tbl : list (Z * Z)) : option (Z * Z) :=
  match tbl with
  | [] => None
  | item :: tbl' =>
      if bool_decide (item.1 <= code <= item.2) then Some item
      else find_charset code tbl'
  end.

Definition get_unicode_charset_entry (code : Z) : option (Z * Z) :=
  find_charset code unicode_charset_map.

(** ** The code-to-CID trie: [CMap] and [FileCMap] *)

(** A value stored in [code2cid]: an [int] leaf or a nested [dict]
    keyed by [ord] of the next byte. *)
Inductive node :=
| Leaf (cid : Z)
| Branch (d : gmap Z node).

Module CMap.

(** [CMap.decode]. The cursor [d] is whatever [d[c]] returned; [c in d]
    and [d[c]] raise [TypeError] on an [int]. The generator's items
    are collected in a list. *)
Fixpoint decode_from (code2cid : gmap Z node) (d : node)
    (code : list byte) : result (list Z) :=
  match code with
  | [] => Ok []
  | c :: code' =>
      match d with
      | Leaf _ => Raise TypeError
      | Branch m =>
          match m !! ord c with
          | Some (Leaf cid) =>
              cons cid <$> decode_from code2cid (Branch code2cid) code'
          | Some (Branch m') => decode_from code2cid (Branch m') code'
          | None => decode_from code2cid (Branch code2cid) code'
          end
      end
  end.

Definition decode (code2cid : gmap Z node) (code : list byte)
    : result (list Z) :=
  decode_from code2cid (Branch code2cid) code.

End CMap.

Module FileCMap.

(** The loop of [add_code2cid] over [code[:-1]] followed by
    [d[ord(code[-1])] = cid], from the cursor [d]. The dictionaries
    are mutated in place; the result is the cursor's dictionary after
    the call. *)
Fixpoint add_from (d : node) (init : list byte) (last : byte) (cid : Z)
    : result node :=
  match d with
  | Leaf _ => Raise TypeError
  | Branch m =>
      match init with
      | [] => Ok (Branch (<[ord last := Leaf cid]> m))
      | c :: init' =>
          match m !! ord c with
          | Some d' =>
              t ← add_from d' init' last cid;
              Ok (Branch (<[ord c := t]> m))
          | None =>
              t ← add_from (Branch ∅) init' last cid;
              Ok (Branch (<[ord c := t]> m))
          end
      end
  end.

Definition add_code2cid (code : list byte) (cid : Z)
    (code2cid : gmap Z node) : result (gmap Z node) :=
  match split_last code with
  | None => Raise IndexError
  | Some (init, last) =>
      t ← add_from (Branch code2cid) init last cid;
      match t with
      | Branch m => Ok m
      | Leaf _ => Raise TypeError
      end
  end.

End FileCMap.

(** ** The identity maps and the resource cache *)

Module IdentityCMap.

(** [IdentityCMap.decode]: [n = len(code)//2], then
    [struct.unpack('>%dH' % n, code)] on the whole of [code]. *)
Definition decode (code : list byte) : result (list Z) :=
  let n := (length code / 2)%nat in
  if bool_decide (n ≠ 0%nat) then unpack_H n code else Ok [].

End IdentityCMap.

Module CMapDB.

(** A store as [get_cmap] returns it. *)
Inductive cmap_obj :=
| IdentityCMap (WMode : Z)
| PyCMap (name : string) (code2cid : gmap Z node) (WMode : Z).

(** What a pickled resource holds: [CODE2CID] and [IS_VERTICAL]. *)
Record module_data := ModuleData {
  CODE2CID : gmap Z node;
  IS_VERTICAL : bool
}.

(** [_load_data] looks a resource file up and reads it; [resources] is
    the content of the resource directories, and the names looked up are
    reported. *)
Definition _load_data (resources : gmap string module_data) (name : string)
    : result module_data * list string :=
  match resources !! name with
  | Some data => (Ok data, [name])
  | None => (Raise CMapNotFound, [name])
  end.

Definition new_PyCMap (name : string) (module : module_data) : cmap_obj :=
  PyCMap name (CODE2CID module) (if IS_VERTICAL module then 1 else 0).

(** [get_cmap]: the result, the class-level [_cmap_cache] afterwards and
    the resource files looked up. *)
Definition get_cmap (resources : gmap string module_data)
    (_cmap_cache : gmap string cmap_obj) (name : string)
    : result cmap_obj * gmap string cmap_obj * list string :=
  if bool_decide (name = "Identity-H"%string) then
    (Ok (IdentityCMap 0), _cmap_cache, [])
  else if bool_decide (name = "Identity-V"%string) then
    (Ok (IdentityCMap 1), _cmap_cache, [])
  else
    match _cmap_cache !! name with
    | Some cmap => (Ok cmap, _cmap_cache, [])
    | None =>
        match _load_data resources name with
        | (Ok data, reads) =>
            let cmap := new_PyCMap name data in
            (Ok cmap, <[name := cmap]> _cmap_cache, reads)
        | (Raise e, reads) => (Raise e, _cmap_cache, reads)
        end
    end.

(** [cmap.decode(code)] by the class of [cmap]. *)
Definition decode (cmap : cmap_obj) (code : list byte) : result (list Z) :=
  match cmap with
  | IdentityCMap _ => IdentityCMap.decode code
  | PyCMap _ code2cid _ => CMap.decode code2cid code
  end.

End CMapDB.

(** ** Objects of the operand stack and Unicode text *)

(** What the tokenizer pushes: integers, byte strings, arrays, name
    literals; [PSOther] stands for the rest (reals, booleans, ...). *)
Inductive psobj :=
| PSInt (n : Z)
| PSStr (s : list byte)
| PSList (items : list psobj)
| PSLiteral (name : string)
| PSOther.

(** A [unicode] value of the table, by the expression that made it:
    [unicode(code, 'UTF-16BE', 'ignore')] or [unichr(code)]; every text is
    the first of some byte string. *)
Inductive utext :=
| UDecode (code : list byte)
| UChr (code : Z).

#[global] Instance utext_eq_dec : EqDecision utext.
Proof. solve_decision. Defined.

(** [unichr(code)]: [ValueError] outside [0 .. sys.maxunicode]. *)
Definition unichr (code : Z) : result utext :=
  if bool_decide (0 <= code <= maxunicode) then Ok (UChr code)
  else Raise ValueError.

(** A bfrange entry, the tuple [(cid_start, cid_end, target_ucode, off)]
    of the source; [item[0]] is [cid_start], ..., [item[3]] is [off]. *)
Record bfrange := BFRange {
  cid_start : Z;
  cid_end : Z;
  target_ucode : Z;
  off : Z
}.

#[global] Instance bfrange_eq_dec : EqDecision bfrange.
Proof. solve_decision. Defined.

(** The methods of [CMapBase] the parser calls on its target, and the
    attribute [bfranges] it assigns. *)
Class CMapBase (M : Type) := {
  add_code2cid : list byte -> Z -> M -> result M;
  add_cid2unichr : Z -> psobj -> M -> result M;
  set_bfranges : list bfrange -> M -> M
}.

(** A [FileCMap] object: the trie and, once [fixup_cmaps] has assigned
    it, the attribute [bfranges]. *)
Record FileCMap_t := MkFileCMap {
  code2cid : gmap Z node;
  fc_bfranges : option (list bfrange)
}.

(** [FileCMap] inherits the empty [add_cid2unichr] of [CMapBase]. *)
#[global] Instance FileCMap_base : CMapBase FileCMap_t := {
  add_code2cid code cid m :=
    t ← FileCMap.add_code2cid code cid (code2cid m);
    Ok (MkFileCMap t (fc_bfranges m));
  add_cid2unichr _ _ m := Ok m;
  set_bfranges l m := MkFileCMap (code2cid m) (Some l)
}.

(** ** The CID-to-Unicode table: [UnicodeMap] and [FileUnicodeMap] *)

Module FileUnicodeMap.

Record t := Mk {
  cid2unichr : gmap Z utext;
  bfranges : list bfrange
}.

Definition init : t := Mk ∅ [].

Definition with_cid2unichr (m : t) (cid : Z) (u : utext) : t :=
  Mk (<[cid := u]> (cid2unichr m)) (bfranges m).

Section Methods.
(** [encodingdb.name2unicode] reads the glyph list, which is not among
    the sources: it is a parameter. *)
Context (name2unicode : string -> result utext).

Definition add_cid2unichr (cid : Z) (code : psobj) (m : t) : result t :=
  match code with
  | PSLiteral name => u ← name2unicode name; Ok (with_cid2unichr m cid u)
  | PSStr s => Ok (with_cid2unichr m cid (UDecode s))
  | PSInt n => u ← unichr n; Ok (with_cid2unichr m cid u)
  | _ => Raise TypeError
  end.

Definition is_same_charset (cid : Z) (bfrangeitem : bfrange) : bool :=
  match get_unicode_charset_entry (cid + off bfrangeitem) with
  | Some charset =>
      bool_decide (charset.1 <= target_ucode bfrangeitem <= charset.2)
  | None => false
  end.

(** The loop of [get_nearest_bfrange] over the items left, and the
    code after the loop. *)
Fixpoint nearest_from (all : list bfrange) (cid : Z)
    (prev : option bfrange) (items : list bfrange) : option bfrange :=
  match items with
  | item :: items' =>
      if bool_decide (cid < cid_start item) then
        let same_cur := is_same_charset cid item in
        match prev with
        | Some prev =>
            let same_prev := is_same_charset cid prev in
            if same_prev && same_cur then
              Some (if bool_decide
                         (cid - cid_end prev < cid_start item - cid)
                    then prev else item)
            else if same_prev then Some prev
            else if same_cur then Some item
            else None
        | None => if same_cur then Some item else None
        end
      else nearest_from all cid (Some item) items'
  | [] =>
      match last all with
      | Some l => if is_same_charset cid l then Some l else None
      | None => None
      end
  end.

Definition get_nearest_bfrange (m : t) (cid : Z) : option bfrange :=
  nearest_from (bfranges m) cid None (bfranges m).

(** [UnicodeMap.get_unichr]: [self.cid2unichr[cid]]. *)
Definition base_get_unichr (m : t) (cid : Z) : result utext :=
  match cid2unichr m !! cid with
  | Some u => Ok u
  | None => Raise KeyError
  end.

(** [FileUnicodeMap.get_unichr]: the text and the map afterwards. The
    [logger.info] line is not modelled. *)
Definition get_unichr (m : t) (cid : Z) : result (utext * t) :=
  m' ← (if bool_decide (cid2unichr m !! cid = None) then
          match get_nearest_bfrange m cid with
          | Some item => add_cid2unichr cid (PSInt (cid + off item)) m
          | None => Ok m
          end
        else Ok m);
  u ← base_get_unichr m' cid;
  Ok (u, m').

(** [FileUnicodeMap] inherits the empty [add_code2cid] of [CMapBase]. *)
Definition base : CMapBase t :=
  Build_CMapBase t
    (fun _ _ m => Ok m)
    add_cid2unichr
    (fun l m => Mk (cid2unichr m) l).

End Methods.

End FileUnicodeMap.

(** ** The interpreter: [CMapParser] *)

Module CMapParser.

(** The parser's fields that the handlers below touch: the target map
    and the accepted and dropped bfrange entries. *)
Record t (M : Type) := Mk {
  cmap : M;
  cmap_bfrange_items : list bfrange;
  drop_bfrange_items : list bfrange
}.
Arguments Mk {M} _ _ _.
Arguments cmap {M} _.
Arguments cmap_bfrange_items {M} _.
Arguments drop_bfrange_items {M} _.

Definition verify_char_set (s1 e1 base : Z) : option Z :=
  match get_unicode_charset_entry base with
  | Some item =>
      if bool_decide (item.2 - base + s1 < e1) then Some s1 else Some e1
  | None => None
  end.

(** [if e2:] on the result of [verify_char_set]. *)
Definition truthy (e2 : option Z) : bool :=
  match e2 with
  | Some n => bool_decide (n ≠ 0)
  | None => false
  end.

(** [is_subset_of_ranges]: the first item other than [range] whose
    Unicode interval contains that of [range]. *)
Fixpoint is_subset_of_ranges (bfranges : list bfrange) (range : bfrange)
    : option bfrange :=
  let code_s := target_ucode range in
  let code_e := target_ucode range + cid_end range - cid_start range in
  match bfranges with
  | [] => None
  | item :: bfranges' =>
      if bool_decide (item = range) then is_subset_of_ranges bfranges' range
      else if bool_decide (code_s >= target_ucode item) &&
              bool_decide (code_e <= target_ucode item + cid_end item
                                     - cid_start item)
      then Some item
      else is_subset_of_ranges bfranges' range
  end.

(** The loop variables of [fill_cmap_by_ranges]. [last_merged] and
    [prev] are [None] before the first item and are both assigned in
    every iteration: [cur] holds the two together. *)
Record fill_state (M : Type) := MkFill {
  result_bfranges : list bfrange;
  cur : option (bfrange * bfrange);
  fill_cmap : M
}.
Arguments MkFill {M} _ _ _.
Arguments result_bfranges {M} _.
Arguments cur {M} _.
Arguments fill_cmap {M} _.

Section Parser.
Context {M : Type} `{!CMapBase M}.

(** One group [(s, e, cid)] of [endcidrange]. *)
Definition cidrange_group (g : list psobj) (m : M) : result M :=
  match g with
  | [PSStr s; PSStr e; PSInt cid] =>
      if bool_decide (length s ≠ length e) then Ok m
      else
        let sprefix := but_last_n 4 s in
        let eprefix := but_last_n 4 e in
        if bool_decide (sprefix ≠ eprefix) then Ok m
        else
          let svar := last_n 4 s in
          let evar := last_n 4 e in
          let s1 := nunpack svar in
          let e1 := nunpack evar in
          let vlen := length svar in
          for_each
            (fun i m =>
               b ← pack_L (s1 + i);
               add_code2cid (sprefix ++ neg_slice_from vlen b) (cid + i) m)
            (xrange (e1 - s1 + 1)) m
  | _ => Ok m
  end.

(** One pair [(cid, code)] of [endcidchar]: both must be strings. *)
Definition cidchar_pair (g : list psobj) (m : M) : result M :=
  match g with
  | [PSStr cid; PSStr code] => add_code2cid code (nunpack cid) m
  | _ => Ok m
  end.

(** One pair [(cid, code)] of [endbfchar]. *)
Definition bfchar_pair (g : list psobj) (m : M) : result M :=
  match g with
  | [PSStr cid; PSStr code] => add_cid2unichr (nunpack cid) (PSStr code) m
  | _ => Ok m
  end.

(** One group [(s, e, code)] of [endbfrange]. A [code] that is
    neither a list nor a string fails at [code[-4:]]. *)
Definition bfrange_group (g : list psobj) (p : t M) : result (t M) :=
  match g with
  | [PSStr s; PSStr e; code] =>
      if bool_decide (length s ≠ length e) then Ok p
      else
        let s1 := nunpack s in
        let e1 := nunpack e in
        match code with
        | PSList items =>
            m ← for_each
                  (fun i m =>
                     match items !! Z.to_nat i with
                     | Some c => add_cid2unichr (s1 + i) c m
                     | None => Raise IndexError
                     end)
                  (xrange (e1 - s1 + 1)) (cmap p);
            Ok (Mk m (cmap_bfrange_items p) (drop_bfrange_items p))
        | PSStr code =>
            let var := last_n 4 code in
            let base := nunpack var in
            let prefix := but_last_n 4 code in
            let vlen := length var in
            let e2 := verify_char_set s1 e1 base in
            if truthy e2 then
              let e2 := default 0 e2 in
              m ← for_each
                    (fun i m =>
                       b ← pack_L (base + i);
                       add_cid2unichr (s1 + i)
                         (PSStr (prefix ++ neg_slice_from vlen b)) m)
                    (xrange (e2 - s1 + 1)) (cmap p);
              Ok (Mk m
                    (cmap_bfrange_items p
                       ++ [BFRange s1 e2 base (base - s1)])
                    (drop_bfrange_items p))
            else
              Ok (Mk (cmap p) (cmap_bfrange_items p)
                    (drop_bfrange_items p
                       ++ [BFRange s1 e1 base (base - s1)]))
        | _ => Raise TypeError
        end
  | _ => Ok p
  end.

(** The handlers of [do_keyword], on [objs], the objects that
    [popall] returned. *)
Definition do_ENDCIDRANGE (objs : list psobj) (p : t M) : result (t M) :=
  m ← for_each cidrange_group (choplist 3 objs) (cmap p);
  Ok (Mk m (cmap_bfrange_items p) (drop_bfrange_items p)).

Definition do_ENDCIDCHAR (objs : list psobj) (p : t M) : result (t M) :=
  m ← for_each cidchar_pair (choplist 2 objs) (cmap p);
  Ok (Mk m (cmap_bfrange_items p) (drop_bfrange_items p)).

Definition do_ENDBFRANGE (objs : list psobj) (p : t M) : result (t M) :=
  for_each bfrange_group (choplist 3 objs) p.

Definition do_ENDBFCHAR (objs : list psobj) (p : t M) : result (t M) :=
  m ← for_each bfchar_pair (choplist 2 objs) (cmap p);
  Ok (Mk m (cmap_bfrange_items p) (drop_bfrange_items p)).

(** The back-fill of [fill_cmap_by_ranges]:
    [for i in range(prev[1]+1, item[0], 1): add_cid2unichr(i, i+off)]. *)
Definition back_fill (prev item : bfrange) (off : Z) (m : M) : result M :=
  for_each (fun i m => add_cid2unichr i (PSInt (i + off)) m)
    (range (cid_end prev + 1) (cid_start item)) m.

(** The body of the loop of [fill_cmap_by_ranges]. *)
Definition fill_step (add_to_map : bool) (item : bfrange)
    (st : fill_state M) : result (fill_state M) :=
  match cur st with
  | Some (last_merged, prev) =>
      if bool_decide (target_ucode item - cid_start item
                      = target_ucode prev - cid_start prev)
      then
        let off := target_ucode item - cid_start item in
        m ← (if add_to_map then back_fill prev item off (fill_cmap st)
             else Ok (fill_cmap st));
        Ok (MkFill (result_bfranges st)
              (Some (BFRange (cid_start last_merged) (cid_end item)
                       (target_ucode last_merged) off, item))
              m)
      else
        Ok (MkFill (result_bfranges st ++ [last_merged])
              (Some (item, item)) (fill_cmap st))
  | None => Ok (MkFill (result_bfranges st) (Some (item, item)) (fill_cmap st))
  end.

Definition fill_cmap_by_ranges (bfranges : list bfrange)
    (add_to_map : bool) (m : M) : result (list bfrange * M) :=
  st ← for_each (fill_step add_to_map) (sorted cid_start bfranges)
         (MkFill [] None m);
  Ok (match cur st with
      | Some (last_merged, _) => result_bfranges st ++ [last_merged]
      | None => result_bfranges st
      end, fill_cmap st).

(** [fixup_cmaps]. The [logger.warning] on dropped items is not
    modelled; the dropped items stay in [drop_bfrange_items]. *)
Definition fixup_cmaps (p : t M) : result (t M) :=
  match cmap_bfrange_items p with
  | [] => Ok p
  | _ =>
      '(merged_bfranges, m1) ←
        fill_cmap_by_ranges (cmap_bfrange_items p) true (cmap p);
      if bool_decide (length merged_bfranges
                      = length (cmap_bfrange_items p))
      then Ok (Mk m1 (cmap_bfrange_items p) (drop_bfrange_items p))
      else
        let results_bfranges :=
          List.filter
            (fun item =>
               match is_subset_of_ranges merged_bfranges item with
               | Some _ => false
               | None => true
               end)
            merged_bfranges in
        '(final_bfranges, m2) ←
          (if bool_decide (length results_bfranges
                           ≠ length merged_bfranges)
           then fill_cmap_by_ranges results_bfranges true m1
           else Ok (results_bfranges, m1));
        Ok (Mk (set_bfranges (sorted cid_start final_bfranges) m2)
              [] (drop_bfrange_items p))
  end.

End Parser.

End CMapParser.

(** ** [CMap.use_cmap] over a store of dictionaries *)

(** [use_cmap] reads the trie of one map and writes the trie of another,
    and what it installs are new dictionaries: here a dictionary is an
    object of a store, named by its location, and an item of a dictionary
    is an [int] or a reference to a dictionary. *)
Module Store.

Definition loc := nat.

Inductive val :=
| VInt (n : Z)
| VRef (l : loc).

Abbreviation dict := (gmap Z val).
Abbreviation heap := (gmap loc (gmap Z val)).

(** [d = {}]: a location not yet in use. *)
Definition new_dict (h : heap) : loc := fresh (dom h).

(** [dst[k] = v] on the dictionary at [l]. *)
Definition setitem (l : loc) (k : Z) (v : val) (h : heap) : option heap :=
  d ← h !! l; Some (<[l := <[k := v]> d]> h).

Section Copy.
(** The order in which [iteritems] yields the items of a dictionary. *)
Context (iteritems : dict → list (Z * val)).

(** The body of the loop of [copy], over the items still to come; [copy]
    is the function itself, for the nested dictionaries. *)
Fixpoint copy_items (copy : loc → loc → heap → option heap)
    (dst : loc) (items : list (Z * val)) (h : heap) : option heap :=
  match items with
  | [] => Some h
  | (k, v) :: items' =>
      h' ← match v with
           | VRef s =>
               let d := new_dict h in
               h1 ← setitem dst k (VRef d) (<[d := ∅]> h);
               copy d s h1
           | VInt _ => setitem dst k v h
           end;
      copy_items copy dst items' h'
  end.

(** The local function [copy(dst, src)] of [use_cmap]. The items of [src]
    are those it holds when the loop starts: the loop assigns to [dst] only
    the key it is visiting, and the nested calls write to new
    dictionaries. [fuel] bounds the depth of the recursion; [None] is a
    missing location or the end of the fuel. *)
Fixpoint copy (fuel : nat) (dst src : loc) (h : heap) : option heap :=
  match fuel with
  | O => None
  | S fuel' =>
      d ← h !! src; copy_items (copy fuel') dst (iteritems d) h
  end.

(** [self.use_cmap(cmap)], on the locations of the two [code2cid]. *)
Definition use_cmap (fuel : nat) (self cmap : loc) (h : heap) : option heap :=
  copy fuel self cmap h.

End Copy.

(** Two optional items are related, or both absent. *)
Definition opt_rel {A B} (R : A → B → Prop) (a : option A) (b : option B)
    : Prop :=
  match a, b with
  | Some x, Some y => R x y
  | None, None => True
  | _, _ => False
  end.

(** The item [v] of the store [h] is the trie value [t], through at most
    [n] levels of dictionaries whose locations all satisfy [P]. *)
Fixpoint repr (P : loc → Prop) (n : nat) (h : heap) (v : val) (t : node)
    : Prop :=
  match v, t with
  | VInt a, Leaf b => a = b
  | VRef l, Branch m =>
      match n with
      | O => False
      | S n' =>
          P l ∧ ∃ d, h !! l = Some d ∧
            ∀ k, opt_rel (repr P n' h) (d !! k) (m !! k)
      end
  | _, _ => False
  end.

End Store.

(** ** Vocabulary of the statements and invariants of the proofs *)

(** The node reached from [d] along the bytes of [code], if every edge
    exists. A map holds the code [code] for [cid] when this is
    [Leaf cid]. *)
Fixpoint walk (d : node) (code : list byte) : option node :=
  match code with
  | [] => Some d
  | c :: code' =>
      match d with
      | Branch m => m !! ord c ≫= fun d' => walk d' code'
      | Leaf _ => None
      end
  end.

(** Insertion of the pairs [(code, cid)] one after the other. *)
Definition add_all (pairs : list (list byte * Z)) (code2cid : gmap Z node)
    : result (gmap Z node) :=
  for_each (fun p m => FileCMap.add_code2cid p.1 p.2 m) pairs code2cid.

(** No code of the list is a prefix of another one. *)
Definition prefix_free (codes : list (list byte)) : Prop :=
  ∀ c1 c2, c1 ∈ codes → c2 ∈ codes → c1 `prefix_of` c2 → c1 = c2.

(** The entries of an index sorted by [cid_start], as [fixup_cmaps]
    stores it. *)
Definition sorted_by_start (l : list bfrange) : Prop :=
  StronglySorted (fun a b => cid_start a <= cid_start b) l.

(** The neighbours of [cid] in the index: the last entry that starts at or
    before [cid] and the first entry that starts after it. *)
Definition predecessor (cid : Z) (l : list bfrange) : option bfrange :=
  last (List.filter (fun it => bool_decide (cid_start it <= cid)) l).

Definition successor (cid : Z) (l : list bfrange) : option bfrange :=
  head (List.filter (fun it => bool_decide (cid < cid_start it)) l).

(** The choice between the neighbours as the spec words it: the closer
    boundary when both pass the same-block test (the successor on a tie),
    the one that passes otherwise, none when neither does. *)
Definition choose_neighbour (cid : Z) (p s : option bfrange)
    : option bfrange :=
  let ok it := FileUnicodeMap.is_same_charset cid it in
  match p, s with
  | Some p, Some s =>
      if ok p && ok s then
        Some (if bool_decide (cid - cid_end p < cid_start s - cid)
              then p else s)
      else if ok p then Some p
      else if ok s then Some s
      else None
  | Some p, None => if ok p then Some p else None
  | None, Some s => if ok s then Some s else None
  | None, None => None
  end.

(** An entry as [endbfrange] accepts it from a range that is not
    reversed: it runs forwards and its Unicode interval lies in the span
    of the block table. *)
Definition wf_entry (it : bfrange) : Prop :=
  cid_start it <= cid_end it ∧ 0 <= target_ucode it ∧
  target_ucode it + (cid_end it - cid_start it) <= 0xffff.

(** The Unicode interval of [r] lies inside the Unicode interval of [x]. *)
Definition contained_in (r x : bfrange) : Prop :=
  target_ucode x <= target_ucode r ∧
  target_ucode r + cid_end r - cid_start r
    <= target_ucode x + cid_end x - cid_start x.

(** The entries that survive the subset elimination of [fixup_cmaps]. *)
Definition not_subset (merged : list bfrange) : list bfrange :=
  List.filter
    (fun item =>
       match CMapParser.is_subset_of_ranges merged item with
       | Some _ => false
       | None => true
       end)
    merged.

(** The CIDs strictly between the end of [prev] and the start of [item]. *)
Definition in_gap (prev item : bfrange) (i : Z) : Prop :=
  cid_end prev < i < cid_start item.

(** What the trie [t] holds is exactly the pairs of [S]. *)
Definition holds_exactly (t : gmap Z node) (S : list (list byte * Z))
    : Prop :=
  (∀ code cid, (code, cid) ∈ S → walk (Branch t) code = Some (Leaf cid)) ∧
  (∀ q n, walk (Branch t) q = Some (Leaf n) → q ∈ S.*1).

(** What the loop of [fill_cmap_by_ranges] keeps true on entries that run
    forwards: [last_merged] starts no later than [prev], ends where [prev]
    ends and has its offset. *)
Definition fill_inv (st : CMapParser.fill_state FileUnicodeMap.t) : Prop :=
  Forall wf_entry (CMapParser.result_bfranges st) ∧
  match CMapParser.cur st with
  | Some (last_merged, prev) =>
      wf_entry last_merged ∧ wf_entry prev ∧
      cid_start last_merged <= cid_start prev ∧
      cid_end last_merged = cid_end prev ∧
      target_ucode last_merged - cid_start last_merged
        = target_ucode prev - cid_start prev
  | None => True
  end.

(** What the loop of [copy] has reached after the keys [done]: the old
    dictionaries but [dst] are as in [h0]; at a key of [done], [dst] holds
    a copy of the source item made of new dictionaries; at the other keys
    it holds what it held in [h0]. *)
Definition loop_inv (n : nat) (h0 : Store.heap) (dst : Store.loc)
    (dd0 : Store.dict) (t : gmap Z node) (done : gset Z) (h : Store.heap)
    : Prop :=
  dom h0 ⊆ dom h ∧
  (∀ l, l ∈ dom h0 → l ≠ dst → h !! l = h0 !! l) ∧
  ∃ dd, h !! dst = Some dd ∧
    ∀ k, if decide (k ∈ done)
         then ∃ tk v', t !! k = Some tk ∧ dd !! k = Some v' ∧
                Store.repr (fun l => l ∉ dom h0) n h v' tk
         else dd !! k = dd0 !! k.

(** What a call of [copy] has done when it returns. *)
Definition copy_post (n : nat) (h h' : Store.heap) (dst : Store.loc)
    (t : gmap Z node) : Prop :=
  dom h ⊆ dom h' ∧
  (∀ l, l ∈ dom h → l ≠ dst → h' !! l = h !! l) ∧
  ∃ dd dd', h !! dst = Some dd ∧ h' !! dst = Some dd' ∧
    ∀ k, match t !! k with
         | Some tk => ∃ v', dd' !! k = Some v' ∧
                        Store.repr (fun l => l ∉ dom h) n h' v' tk
         | None => dd' !! k = dd !! k
         end.

(** [cp] copies tries of at most [n] levels below the root. *)
Definition copy_ok (n : nat)
    (cp : Store.loc → Store.loc → Store.heap → option Store.heap) : Prop :=
  ∀ (h : Store.heap) dst src ds (t : gmap Z node) (S : gset Store.loc),
    h !! src = Some ds →
    (∀ k, Store.opt_rel (Store.repr (fun l => l ∈ S) n h)
            (ds !! k) (t !! k)) →
    is_Some (h !! dst) → dst ∉ S → S ⊆ dom h →
    ∃ h', cp dst src h = Some h' ∧ copy_post n h h' dst t.

(** ** Vocabulary of the further properties *)

(** A proper prefix of [code] is held for a CID. *)
Definition leaf_on_the_way (t : gmap Z node) (code : list byte) : Prop :=
  ∃ q ext n, code = q ++ ext ∧ ext ≠ [] ∧ walk (Branch t) q = Some (Leaf n).

(** ** [CMapDB.get_unicode_map] *)

Module UnicodeMapDB.

(** What a pickled [to-unicode-...] resource holds. *)
Record module_data := ModuleData {
  CID2UNICHR_H : gmap Z utext;
  CID2UNICHR_V : gmap Z utext
}.

(** A [PyUnicodeMap]: its table and the [WMode] its attributes give. *)
Record PyUnicodeMap := MkPyUnicodeMap {
  umap_name : string;
  umap_cid2unichr : gmap Z utext;
  umap_WMode : Z
}.

(** [PyUnicodeMap(name, module, vertical)]. *)
Definition new_PyUnicodeMap (name : string) (module : module_data)
    (vertical : bool) : PyUnicodeMap :=
  if vertical then MkPyUnicodeMap name (CID2UNICHR_V module) 1
  else MkPyUnicodeMap name (CID2UNICHR_H module) 0.

(** [_load_data] on the resources of Unicode maps, as for the CMaps. *)
Definition _load_data (resources : gmap string module_data) (name : string)
    : result module_data * list string :=
  match resources !! name with
  | Some data => (Ok data, [name])
  | None => (Raise CMapNotFound, [name])
  end.

(** [umaps[vertical]] on the list of the two maps. *)
Definition pick (umaps : PyUnicodeMap * PyUnicodeMap) (vertical : bool)
    : PyUnicodeMap :=
  if vertical then umaps.2 else umaps.1.

(** [get_unicode_map]: the result, the class-level [_umap_cache] afterwards
    and the resource files looked up. *)
Definition get_unicode_map (resources : gmap string module_data)
    (_umap_cache : gmap string (PyUnicodeMap * PyUnicodeMap))
    (name : string) (vertical : bool)
    : result PyUnicodeMap * gmap string (PyUnicodeMap * PyUnicodeMap)
      * list string :=
  match _umap_cache !! name with
  | Some umaps => (Ok (pick umaps vertical), _umap_cache, [])
  | None =>
      match _load_data resources ("to-unicode-" +:+ name) with
      | (Ok data, reads) =>
          let umaps :=
            (new_PyUnicodeMap name data false,
             new_PyUnicodeMap name data true) in
          (Ok (pick umaps vertical), <[name := umaps]> _umap_cache, reads)
      | (Raise e, reads) => (Raise e, _umap_cache, reads)
      end
  end.

(** [UnicodeMap.get_unichr] on a [PyUnicodeMap]: [self.cid2unichr[cid]]. *)
Definition get_unichr (m : PyUnicodeMap) (cid : Z) : result utext :=
  match umap_cid2unichr m !! cid with
  | Some u => Ok u
  | None => Raise KeyError
  end.

End UnicodeMapDB.

(** The string [x] that the base-form branch of [endbfrange] installs at
    step [i]: [prefix + struct.pack('>L', base + i)[-vlen:]]. *)
Definition bf_code (code : list byte) (i : Z) : list byte :=
  but_last_n 4 code
  ++ neg_slice_from (length (last_n 4 code))
       (be_bytes 4 (nunpack (last_n 4 code) + i)).

(** The offset [item[2] - item[0]] that the merge pass compares. *)
Definition offset_of (it : bfrange) : Z := target_ucode it - cid_start it.

(** How many items of [items] have the offset of the item before them,
    [prev] being the one before the first: the merges of the pass. *)
Fixpoint merge_count (prev : bfrange) (items : list bfrange) : nat :=
  match items with
  | [] => 0
  | item :: rest =>
      (if bool_decide (offset_of item = offset_of prev) then 1 else 0)
      + merge_count item rest
  end.

Definition merges (l : list bfrange) : nat :=
  match l with
  | [] => 0
  | first :: rest => merge_count first rest
  end.

(** * Properties *)

(** ** The trie: paths, insertion, decoding *)

Lemma ord_inj c1 c2 : ord c1 = ord c2 → c1 = c2.
Proof.
  unfold ord. intros H. apply N2Z.inj in H.
  pose proof (Byte.of_to_N c1) as H1. pose proof (Byte.of_to_N c2) as H2.
  rewrite H in H1. congruence.
Qed.

Lemma walk_app d a b : walk d (a ++ b) = walk d a ≫= fun d' => walk d' b.
Proof.
  revert d. induction a as [|c a IH]; intros d; simpl; [done|].
  destruct d as [|m]; [done|].
  destruct (m !! ord c) as [d'|]; simpl; [apply IH|done].
Qed.

Lemma walk_leaf_cons cid c code : walk (Leaf cid) (c :: code) = None.
Proof. done. Qed.

Lemma decode_from_walk r d code cid rest :
  code ≠ [] → walk d code = Some (Leaf cid) →
  CMap.decode_from r d (code ++ rest)
  = cons cid <$> CMap.decode_from r (Branch r) rest.
Proof.
  revert d. induction code as [|c code IH]; intros d Hne Hw; [done|].
  simpl in *. destruct d as [|m]; [done|].
  destruct (m !! ord c) as [d'|] eqn:E; simpl in Hw; [|done].
  destruct code as [|c' code].
  - simpl in Hw. injection Hw as ->. done.
  - destruct d' as [|m']; [done|]. apply IH; done.
Qed.

Lemma split_last_snoc {A} (init : list A) (l : A) :
  split_last (init ++ [l]) = Some (init, l).
Proof.
  induction init as [|x init IH]; [done|].
  simpl. rewrite IH. destruct (init ++ [l]) eqn:E; [|done].
  by destruct init.
Qed.

Lemma split_last_Some {A} (s init : list A) (l : A) :
  split_last s = Some (init, l) → s = init ++ [l].
Proof.
  revert init. induction s as [|x s IH]; intros init H; [done|].
  simpl in H. destruct s as [|y s].
  - injection H as <- <-. done.
  - destruct (split_last (y :: s)) as [[i l']|]; [|done].
    injection H as <- <-. simpl. f_equal. by apply IH.
Qed.

Lemma split_last_nonempty {A} (s : list A) :
  s ≠ [] → ∃ init l, s = init ++ [l] ∧ split_last s = Some (init, l).
Proof.
  intros Hne. destruct (split_last s) as [[i l]|] eqn:E.
  - exists i, l. split; [by apply split_last_Some|done].
  - exfalso. induction s as [|x s IH]; [done|].
    simpl in E. destruct s as [|y s]; [done|].
    destruct (split_last (y :: s)) as [[i l']|]; [done|]. by apply IH.
Qed.

Lemma add_from_branch m init l cid t :
  FileCMap.add_from (Branch m) init l cid = Ok t → ∃ m', t = Branch m'.
Proof.
  destruct init as [|c init]; simpl.
  - intros [= <-]. eauto.
  - destruct (m !! ord c) as [d'|];
      (destruct (FileCMap.add_from _ init l cid); simpl;
       [intros [= <-]; eauto|done]).
Qed.

Lemma add_from_walk_same d init l cid d' :
  FileCMap.add_from d init l cid = Ok d' →
  walk d' (init ++ [l]) = Some (Leaf cid).
Proof.
  revert d d'. induction init as [|c init IH]; intros d d' H.
  - destruct d as [|m]; [done|]. simpl in H. injection H as <-.
    simpl. by rewrite lookup_insert_eq.
  - destruct d as [|m]; [done|]. simpl in H.
    destruct (m !! ord c) as [d1|];
      (destruct (FileCMap.add_from _ init l cid) as [t|] eqn:E; simpl in H; [|done];
       injection H as <-; simpl; rewrite lookup_insert_eq; simpl; by eapply IH).
Qed.

Lemma add_from_walk_other d init l cid d' p :
  FileCMap.add_from d init l cid = Ok d' →
  ¬ (init ++ [l]) `prefix_of` p → ¬ p `prefix_of` (init ++ [l]) →
  walk d' p = walk d p.
Proof.
  revert d d' p. induction init as [|c init IH]; intros d d' p H Hkp Hpk.
  - destruct d as [|m]; [done|]. simpl in H. injection H as <-.
    destruct p as [|b p]; [exfalso; apply Hpk, prefix_nil|].
    simpl. destruct (decide (ord l = ord b)) as [Heq|Hne].
    + apply ord_inj in Heq as ->. exfalso. apply Hkp.
      exists p. done.
    + by rewrite lookup_insert_ne.
  - destruct d as [|m]; [done|]. simpl in H.
    destruct p as [|b p]; [exfalso; apply Hpk, prefix_nil|].
    assert (Hsub : b = c →
              ¬ (init ++ [l]) `prefix_of` p ∧ ¬ p `prefix_of` (init ++ [l])).
    { intros ->. split; intros Hx.
      - apply Hkp. simpl. by apply prefix_cons.
      - apply Hpk. simpl. by apply prefix_cons. }
    destruct (m !! ord c) as [d1|] eqn:Em;
      destruct (FileCMap.add_from _ init l cid) as [t|] eqn:E; simpl in H; try done;
      injection H as <-; simpl;
      (destruct (decide (ord c = ord b)) as [Heq|Hne];
       [apply ord_inj in Heq as <-; destruct (Hsub eq_refl) as [H1 H2];
        rewrite lookup_insert_eq, Em; simpl
       |rewrite lookup_insert_ne by done; done]).
    + by eapply IH.
    + erewrite IH by done. destruct p; [exfalso; apply H2, prefix_nil|].
      simpl. by rewrite lookup_empty.
Qed.

Lemma add_from_succeeds d init l cid :
  (∀ q n, q `prefix_of` init → walk d q ≠ Some (Leaf n)) →
  ∃ d', FileCMap.add_from d init l cid = Ok d'.
Proof.
  revert d. induction init as [|c init IH]; intros d Hq.
  - destruct d as [n|m]; [exfalso; by apply (Hq [] n)|]. simpl. eauto.
  - destruct d as [n|m]; [exfalso; apply (Hq [] n); [apply prefix_nil|done]|].
    simpl. destruct (m !! ord c) as [d1|] eqn:Em.
    + destruct (IH d1) as [t Ht].
      { intros q n Hp. specialize (Hq (c :: q) n (prefix_cons _ _ _ Hp)).
        simpl in Hq. by rewrite Em in Hq. }
      rewrite Ht. simpl. eauto.
    + destruct (IH (Branch ∅)) as [t Ht].
      { intros q n Hp. destruct q; [done|]. simpl. by rewrite lookup_empty. }
      rewrite Ht. simpl. eauto.
Qed.

Lemma holds_exactly_empty : holds_exactly ∅ [].
Proof.
  split.
  - intros code cid H. by apply elem_of_nil in H.
  - intros q n H. destruct q as [|c q]; [done|].
    simpl in H. by rewrite lookup_empty in H.
Qed.

Lemma walk_leaf_prefix d p rest n :
  walk d (p ++ rest) = Some (Leaf n) → rest ≠ [] →
  ∃ m, walk d p = Some (Branch m).
Proof.
  rewrite walk_app. destruct (walk d p) as [[n'|m]|]; simpl; try done.
  - destruct rest; done.
  - eauto.
Qed.

Lemma add_code2cid_holds t S code cid :
  holds_exactly t S → code ≠ [] →
  code ∉ S.*1 →
  (∀ c, c ∈ S.*1 → ¬ c `prefix_of` code ∧ ¬ code `prefix_of` c) →
  ∃ t', FileCMap.add_code2cid code cid t = Ok t'
        ∧ holds_exactly t' (S ++ [(code, cid)]).
Proof.
  intros [Hin Hout] Hne Hnew Hpf.
  destruct (split_last_nonempty code Hne) as (init & l & -> & Hsl).
  unfold FileCMap.add_code2cid. rewrite Hsl.
  destruct (add_from_succeeds (Branch t) init l cid) as [d' Hd'].
  { intros q n Hq Hw. apply Hout in Hw.
    destruct (Hpf q Hw) as [Hpf1 _]. apply Hpf1.
    etrans; [done|]. by apply prefix_app_r. }
  rewrite Hd'. simpl.
  destruct (add_from_branch _ _ _ _ _ Hd') as [m' ->].
  exists m'. split; [done|]. split.
  - intros code' cid' Hel. apply elem_of_app in Hel as [Hel|Hel].
    + assert (Hc : code' ∈ S.*1)
        by (apply list_elem_of_fmap; by exists (code', cid')).
      destruct (Hpf code' Hc) as [H1 H2].
      erewrite add_from_walk_other; eauto.
    + apply list_elem_of_singleton in Hel. injection Hel as -> ->.
      by eapply add_from_walk_same.
  - intros q n Hw. rewrite fmap_app. apply elem_of_app.
    destruct (decide (q = init ++ [l])) as [->|Hneq]; [right; simpl; by left|].
    left. apply (Hout q n).
    destruct (decide ((init ++ [l]) `prefix_of` q)) as [[r Hr]|Hkq].
    { exfalso. subst q. rewrite walk_app in Hw.
      rewrite (add_from_walk_same _ _ _ _ _ Hd') in Hw. simpl in Hw.
      destruct r; [by rewrite app_nil_r in Hneq|done]. }
    destruct (decide (q `prefix_of` (init ++ [l]))) as [[r Hr]|Hqk].
    { exfalso. pose proof (add_from_walk_same _ _ _ _ _ Hd') as Hs.
      rewrite Hr in Hs. apply walk_leaf_prefix in Hs as [m Hm].
      - congruence.
      - intros ->. rewrite app_nil_r in Hr. done. }
    erewrite <- add_from_walk_other; eauto.
Qed.

Lemma add_all_holds pairs : ∀ t S,
  holds_exactly t S →
  NoDup (S ++ pairs).*1 → prefix_free (S ++ pairs).*1 →
  Forall (fun c => c ≠ []) pairs.*1 →
  ∃ t', add_all pairs t = Ok t' ∧ holds_exactly t' (S ++ pairs).
Proof.
  induction pairs as [|[code cid] pairs IH]; intros t S Hh Hnd Hpf Hne.
  - exists t. rewrite app_nil_r. done.
  - apply Forall_cons in Hne as [Hne1 Hne].
    rewrite fmap_app in Hnd, Hpf. simpl in Hnd, Hpf.
    destruct (add_code2cid_holds t S code cid Hh Hne1) as (t1 & Ht1 & Hh1).
    { apply NoDup_app in Hnd as (_ & Hd & _). intros Hc. apply (Hd _ Hc). by left. }
    { intros c Hc.
      assert (Hc1 : c ∈ S.*1 ++ code :: pairs.*1) by (apply elem_of_app; by left).
      assert (Hc2 : code ∈ S.*1 ++ code :: pairs.*1)
        by (apply elem_of_app; right; by left).
      assert (c ≠ code).
      { intros ->. apply NoDup_app in Hnd as (_ & Hd & _).
        apply (Hd _ Hc). by left. }
      split; intros Hp;
        [apply (Hpf _ _ Hc1 Hc2) in Hp|apply (Hpf _ _ Hc2 Hc1) in Hp];
        congruence. }
    destruct (IH t1 (S ++ [(code, cid)]) Hh1) as (t' & Ht' & Hh'); try done.
    + by rewrite <- app_assoc, fmap_app.
    + by rewrite <- app_assoc, fmap_app.
    + exists t'. unfold add_all in *. simpl. rewrite Ht1. simpl.
      split; [done|]. by rewrite <- app_assoc in Hh'.
Qed.

Lemma decode_concat t (sel : list (list byte * Z)) :
  (∀ code cid, (code, cid) ∈ sel →
     code ≠ [] ∧ walk (Branch t) code = Some (Leaf cid)) →
  CMap.decode t (concat sel.*1) = Ok sel.*2.
Proof.
  unfold CMap.decode. induction sel as [|[code cid] sel IH]; intros H; [done|].
  simpl. destruct (H code cid) as [Hne Hw]; [by left|].
  rewrite (decode_from_walk _ _ _ cid); [|done..].
  fold (sel.*1). rewrite IH; [done|]. intros c n Hel. apply H. by right.
Qed.

(** C8. [CMap.decode] never raises: from any dictionary cursor decoding
    returns a list of CIDs. A byte with no edge from the cursor emits
    nothing and restarts at the root; a byte that reaches a CID leaf emits
    that CID and restarts at the root; a byte that reaches a dictionary
    moves the cursor there. *)
Theorem decode_never_raises (code2cid : gmap Z node) :
  (∀ code, ∃ cids, CMap.decode code2cid code = Ok cids) ∧
  (∀ m code, ∃ cids, CMap.decode_from code2cid (Branch m) code = Ok cids) ∧
  (∀ m c rest,
     CMap.decode_from code2cid (Branch m) (c :: rest)
     = match m !! ord c with
       | None => CMap.decode_from code2cid (Branch code2cid) rest
       | Some (Leaf cid) =>
           cons cid <$> CMap.decode_from code2cid (Branch code2cid) rest
       | Some (Branch m') => CMap.decode_from code2cid (Branch m') rest
       end).
Proof.
  assert (Htotal : ∀ code m, ∃ cids,
            CMap.decode_from code2cid (Branch m) code = Ok cids).
  { induction code as [|c code IH]; intros m; simpl; [eauto|].
    destruct (m !! ord c) as [[cid|m']|]; [|apply IH..].
    destruct (IH code2cid) as [cids ->]. simpl. eauto. }
  split; [|split].
  - intros code. apply Htotal.
  - intros m code. apply Htotal.
  - intros m c rest. simpl. by destruct (m !! ord c) as [[?|?]|].
Qed.

Lemma add_from_through_leaf d c ext l cid cid0 :
  walk d c = Some (Leaf cid0) →
  FileCMap.add_from d (c ++ ext) l cid = Raise TypeError.
Proof.
  revert d. induction c as [|b c IH]; intros d Hw.
  - simpl in Hw. injection Hw as ->. by destruct ext.
  - destruct d as [|m]; [done|]. simpl in *.
    destruct (m !! ord b) as [d1|]; [|done]. simpl in Hw.
    by rewrite (IH d1 Hw).
Qed.

(** C9. When the map holds the code [c] for a CID, [add_code2cid] of a
    strictly longer code that starts with [c] raises [TypeError]: the
    walk reaches the integer leaf and applies [in] or item assignment to
    it. *)
Theorem add_code2cid_through_leaf_raises (code2cid : gmap Z node)
    (c ext : list byte) (cid0 cid : Z) :
  walk (Branch code2cid) c = Some (Leaf cid0) → ext ≠ [] →
  FileCMap.add_code2cid (c ++ ext) cid code2cid = Raise TypeError.
Proof.
  intros Hw Hext.
  destruct (split_last_nonempty ext Hext) as (ext' & l & -> & _).
  unfold FileCMap.add_code2cid.
  rewrite app_assoc, split_last_snoc.
  by rewrite (add_from_through_leaf _ _ _ _ _ cid0 Hw).
Qed.

Lemma add_code2cid_through_leaf_raises_witness :
  walk (Branch {[ 0 := Leaf 7 ]}) [x00] = Some (Leaf 7) ∧
  FileCMap.add_code2cid ([x00] ++ [x01]) 8 {[ 0 := Leaf 7 ]} = Raise TypeError.
Proof.
  split; [reflexivity|].
  apply (add_code2cid_through_leaf_raises _ [x00] [x01] 7 8); [reflexivity|done].
Defined.

Lemma add_code2cid_nonempty code cid t t' :
  FileCMap.add_code2cid code cid t = Ok t' → code ≠ [].
Proof. by intros H ->. Qed.

Lemma add_all_nonempty pairs : ∀ t t',
  add_all pairs t = Ok t' → Forall (fun c => c ≠ []) pairs.*1.
Proof.
  induction pairs as [|[code cid] pairs IH]; intros t t' H; [constructor|].
  unfold add_all in H. simpl in H.
  destruct (FileCMap.add_code2cid code cid t) as [t1|] eqn:E; [|done].
  simpl in H. constructor.
  - by eapply add_code2cid_nonempty.
  - by eapply IH.
Qed.

(** C6. Pairs with pairwise distinct codes, none a prefix of another,
    inserted by [add_code2cid] (the insertion behind [endcidrange] and
    [endcidchar]) into an empty map: once they are inserted, decoding the
    concatenation of any selection of the codes, in any order, gives the
    CIDs of the selection in that order; and the insertion does return when
    every code has at least one byte (the empty byte string is not a code:
    [add_code2cid] raises [IndexError] on it). And
    [begincidrange <0000> <0002> 10 endcidrange] makes [00 00 00 01 00 02]
    decode to [10; 11; 12]. *)
Theorem cid_round_trip :
  (∀ pairs : list (list byte * Z),
     NoDup pairs.*1 → prefix_free pairs.*1 →
     (Forall (fun c => c ≠ []) pairs.*1 →
        ∃ code2cid, add_all pairs ∅ = Ok code2cid) ∧
     (∀ code2cid, add_all pairs ∅ = Ok code2cid →
        ∀ sel, sel ⊆ pairs →
          CMap.decode code2cid (concat sel.*1) = Ok sel.*2)) ∧
  (p ← CMapParser.do_ENDCIDRANGE
         [PSStr [x00; x00]; PSStr [x00; x02]; PSInt 10]
         (CMapParser.Mk (MkFileCMap ∅ None) [] []);
   CMap.decode (code2cid (CMapParser.cmap p)) [x00; x00; x00; x01; x00; x02])
  = Ok [10; 11; 12].
Proof.
  split; [|by vm_compute].
  intros pairs Hnd Hpf.
  assert (Hmain : Forall (fun c => c ≠ []) pairs.*1 →
            ∃ t, add_all pairs ∅ = Ok t ∧
              ∀ sel, sel ⊆ pairs → CMap.decode t (concat sel.*1) = Ok sel.*2).
  { intros Hne.
    destruct (add_all_holds pairs ∅ [] holds_exactly_empty)
      as (t & Ht & [Hin _]); try done.
    exists t. split; [done|]. intros sel Hsub.
    apply decode_concat. intros code cid Hel. split.
    - rewrite Forall_forall in Hne. apply Hne.
      apply list_elem_of_fmap. exists (code, cid). split; [done|]. by apply Hsub.
    - apply Hin. simpl. by apply Hsub. }
  split.
  - intros Hne. destruct (Hmain Hne) as (t & Ht & _). eauto.
  - intros t Ht. destruct (Hmain (add_all_nonempty _ _ _ Ht)) as (t' & Ht' & Hdec).
    rewrite Ht in Ht'. by injection Ht' as <-.
Qed.

Lemma cid_round_trip_witness :
  ∃ code2cid,
    add_all [([x81; x40], 633); ([x20], 1); ([x81; x41], 634)] ∅ = Ok code2cid ∧
    CMap.decode code2cid
      (concat [[x81; x41]; [x20]; [x81; x40]; [x20]]) = Ok [634; 1; 633; 1].
Proof.
  destruct (proj1 cid_round_trip
              [([x81; x40], 633); ([x20], 1); ([x81; x41], 634)])
    as [Hins Hdec].
  - refine (bool_decide_unpack _ _). by vm_compute.
  - intros c1 c2 H1 H2 [k Hk].
    simpl in H1, H2. rewrite !elem_of_cons, elem_of_nil in H1, H2.
    destruct H1 as [-> | [-> | [-> | []]]], H2 as [-> | [-> | [-> | []]]];
      by simplify_eq.
  - destruct Hins as [t Ht]; [repeat constructor; done|].
    exists t. split; [done|].
    apply (Hdec t Ht
             [([x81; x41], 634); ([x20], 1); ([x81; x40], 633); ([x20], 1)]).
    intros x Hx. rewrite !elem_of_cons, elem_of_nil in Hx.
    rewrite !elem_of_cons.
    destruct Hx as [-> | [-> | [-> | [-> | []]]]]; auto.
Defined.

(** ** The Unicode block table and the extrapolation lookup *)

Lemma find_charset_Some code tbl item :
  find_charset code tbl = Some item → item ∈ tbl ∧ item.1 <= code <= item.2.
Proof.
  induction tbl as [|x tbl IH]; simpl; [done|].
  case_bool_decide as Hx.
  - intros [= <-]. split; [by left|done].
  - intros H. destruct (IH H) as [H1 H2]. split; [by right|done].
Qed.

Lemma unicode_charset_map_bounds :
  Forall (fun item : Z * Z => 0 <= item.1 ∧ item.2 <= 0xffff)
    unicode_charset_map.
Proof.
  refine (bool_decide_unpack _ _). by vm_compute.
Qed.

Lemma charset_entry_bounds code item :
  get_unicode_charset_entry code = Some item →
  item.1 <= code <= item.2 ∧ 0 <= item.1 ∧ item.2 <= 0xffff.
Proof.
  intros H. apply find_charset_Some in H as [Hel Hb].
  split; [done|].
  pose proof unicode_charset_map_bounds as HF.
  rewrite Forall_forall in HF. by apply HF.
Qed.

Lemma is_same_charset_valid cid it :
  FileUnicodeMap.is_same_charset cid it = true →
  0 <= cid + off it <= maxunicode.
Proof.
  unfold FileUnicodeMap.is_same_charset.
  destruct (get_unicode_charset_entry _) as [item|] eqn:E; [|done].
  intros _. apply charset_entry_bounds in E. unfold maxunicode. lia.
Qed.

Lemma choose_neighbour_same_charset cid p s it :
  choose_neighbour cid p s = Some it →
  FileUnicodeMap.is_same_charset cid it = true.
Proof.
  unfold choose_neighbour. intros H.
  destruct p as [p|], s as [s|]; try done;
    repeat (match type of H with
            | context [FileUnicodeMap.is_same_charset cid ?x] =>
                destruct (FileUnicodeMap.is_same_charset cid x) eqn:?
            end; simpl in H);
    try case_bool_decide; by simplify_eq.
Qed.

Lemma filter_none_after {A} (f : A → bool) (l : list A) :
  Forall (fun x => f x = false) l → List.filter f l = [].
Proof.
  induction 1 as [|x l Hx _ IH]; simpl; [done|]. by rewrite Hx.
Qed.

Lemma filter_all {A} (f : A → bool) (l : list A) :
  Forall (fun x => f x = true) l → List.filter f l = l.
Proof.
  induction 1 as [|x l Hx _ IH]; simpl; [done|]. by rewrite Hx, IH.
Qed.

(** The scan of [get_nearest_bfrange] finds the neighbours of [cid]:
    [pre] is the part of the index already passed. *)
Lemma nearest_from_neighbours all cid pre items :
  all = pre ++ items →
  sorted_by_start all →
  Forall (fun it => cid_start it <= cid) pre →
  FileUnicodeMap.nearest_from all cid (last pre) items
  = choose_neighbour cid (predecessor cid all) (successor cid all).
Proof.
  revert pre. induction items as [|item items IH]; intros pre Hall Hs Hpre.
  - rewrite app_nil_r in Hall. subst all. simpl.
    unfold predecessor, successor.
    rewrite filter_all, filter_none_after.
    + simpl. unfold choose_neighbour. by destruct (last pre).
    + eapply Forall_impl; [done|]. intros x Hx. simpl in Hx.
      apply bool_decide_eq_false. lia.
    + eapply Forall_impl; [done|]. intros x Hx. simpl in Hx.
      by apply bool_decide_eq_true.
  - simpl. case_bool_decide as Hlt.
    + assert (Hrest : Forall (fun it => cid < cid_start it) (item :: items)).
      { subst all. apply StronglySorted_app_1_r in Hs.
        apply StronglySorted_cons in Hs as [Hf _].
        constructor; [done|]. eapply Forall_impl; [done|]. simpl. lia. }
      unfold predecessor, successor. subst all.
      rewrite !List.filter_app.
      rewrite (filter_all _ pre), (filter_none_after _ (item :: items)).
      * rewrite (filter_none_after _ pre).
        -- rewrite app_nil_r. simpl. rewrite bool_decide_eq_true_2 by done.
           simpl. unfold choose_neighbour. by destruct (last pre).
        -- eapply Forall_impl; [done|]. intros x Hx. simpl in Hx.
           apply bool_decide_eq_false. lia.
      * eapply Forall_impl; [done|]. intros x Hx. simpl in Hx.
        apply bool_decide_eq_false. lia.
      * eapply Forall_impl; [done|]. intros x Hx. simpl in Hx.
        by apply bool_decide_eq_true.
    + specialize (IH (pre ++ [item])). rewrite last_snoc in IH.
      apply IH; [by rewrite <- app_assoc|done|].
      apply Forall_app. split; [done|]. constructor; [lia|done].
Qed.

Lemma get_nearest_bfrange_neighbours m cid :
  sorted_by_start (FileUnicodeMap.bfranges m) →
  FileUnicodeMap.get_nearest_bfrange m cid
  = choose_neighbour cid (predecessor cid (FileUnicodeMap.bfranges m))
      (successor cid (FileUnicodeMap.bfranges m)).
Proof.
  intros Hs. unfold FileUnicodeMap.get_nearest_bfrange.
  by apply (nearest_from_neighbours _ cid []).
Qed.

(** C4. For a CID absent from the direct table of a [FileUnicodeMap] whose
    index is sorted by [cid_start]: when a neighbour of the CID passes the
    same-block test, [get_unichr] returns [unichr(cid + off)] for the
    chosen neighbour (the closer boundary when both pass, the one that
    passes otherwise), stores it in the direct table, and the next lookup
    of the CID reads it from there; when neither neighbour passes,
    [get_unichr] raises [KeyError], the error the spec calls
    [UndefinedCID]. *)
Theorem get_unichr_extrapolates (name2unicode : string → result utext)
    (m : FileUnicodeMap.t) (cid : Z) :
  FileUnicodeMap.cid2unichr m !! cid = None →
  sorted_by_start (FileUnicodeMap.bfranges m) →
  match choose_neighbour cid (predecessor cid (FileUnicodeMap.bfranges m))
          (successor cid (FileUnicodeMap.bfranges m)) with
  | Some item =>
      let u := UChr (cid + off item) in
      let m' := FileUnicodeMap.with_cid2unichr m cid u in
      FileUnicodeMap.is_same_charset cid item = true ∧
      FileUnicodeMap.get_unichr name2unicode m cid = Ok (u, m') ∧
      FileUnicodeMap.cid2unichr m' !! cid = Some u ∧
      FileUnicodeMap.get_unichr name2unicode m' cid = Ok (u, m')
  | None => FileUnicodeMap.get_unichr name2unicode m cid = Raise KeyError
  end.
Proof.
  intros Habs Hs.
  pose proof (get_nearest_bfrange_neighbours m cid Hs) as Hn.
  destruct (choose_neighbour _ _ _) as [item|] eqn:Ech.
  - pose proof (choose_neighbour_same_charset _ _ _ _ Ech) as Hsame.
    pose proof (is_same_charset_valid _ _ Hsame) as Hv.
    assert (Hl : FileUnicodeMap.cid2unichr
                   (FileUnicodeMap.with_cid2unichr m cid (UChr (cid + off item)))
                 !! cid = Some (UChr (cid + off item)))
      by (simpl; apply lookup_insert_eq).
    repeat split; [done| |done|].
    + unfold FileUnicodeMap.get_unichr. rewrite bool_decide_eq_true_2 by done.
      rewrite Hn. unfold FileUnicodeMap.add_cid2unichr, unichr.
      rewrite bool_decide_eq_true_2 by done. simpl.
      unfold FileUnicodeMap.base_get_unichr. by rewrite Hl.
    + unfold FileUnicodeMap.get_unichr.
      rewrite bool_decide_eq_false_2 by (rewrite Hl; done). simpl.
      unfold FileUnicodeMap.base_get_unichr. by rewrite Hl.
  - unfold FileUnicodeMap.get_unichr. rewrite bool_decide_eq_true_2 by done.
    rewrite Hn. simpl. unfold FileUnicodeMap.base_get_unichr. by rewrite Habs.
Qed.

Lemma get_unichr_extrapolates_witness :
  let m := FileUnicodeMap.Mk {[ 3 := UChr 103 ]}
             [BFRange 0 14 100 100; BFRange 100 135 40 (-60)] in
  FileUnicodeMap.get_unichr (fun _ => Raise KeyError) m 20
  = Ok (UChr 120, FileUnicodeMap.with_cid2unichr m 20 (UChr 120)).
Proof.
  intros m.
  assert (Hs : sorted_by_start (FileUnicodeMap.bfranges m)).
  { refine (bool_decide_unpack _ _). by vm_compute. }
  pose proof (get_unichr_extrapolates (fun _ => Raise KeyError) m 20
                eq_refl Hs) as H.
  vm_compute in H. vm_compute. tauto.
Defined.

(** ** The admission check of [endbfrange] *)

Lemma range_nil a b : b <= a → range a b = [].
Proof.
  intros H. unfold range. replace (Z.to_nat (b - a)) with 0%nat by lia. done.
Qed.

Lemma range_cons a b : a < b → range a b = a :: range (a + 1) b.
Proof.
  intros H. unfold range.
  replace (Z.to_nat (b - a)) with (S (Z.to_nat (b - (a + 1)))) by lia.
  simpl. f_equal; [lia|].
  rewrite <- fmap_S_seq, <- list_fmap_compose.
  apply list_fmap_ext. intros i x _. simpl. lia.
Qed.

Lemma xrange_one : xrange 1 = [0].
Proof. done. Qed.

Lemma ord_range c : 0 <= ord c < 256.
Proof. unfold ord. pose proof (Byte.to_N_bounded c). lia. Qed.

Lemma byte_of_ord c : Byte.of_N (Z.to_N (ord c)) = Some c.
Proof. unfold ord. rewrite N2Z.id. apply Byte.of_to_N. Qed.

Lemma be_value_snoc v c : be_value (v ++ [c]) = be_value v * 256 + ord c.
Proof. unfold be_value. by rewrite foldl_app. Qed.

Lemma be_value_bound v : 0 <= be_value v < 256 ^ Z.of_nat (length v).
Proof.
  induction v as [|c v IH] using rev_ind; [unfold be_value; simpl; lia|].
  rewrite be_value_snoc, length_app. simpl.
  replace (Z.of_nat (length v + 1)) with (Z.of_nat (length v) + 1) by lia.
  rewrite Z.pow_add_r by lia. change (256 ^ 1) with 256.
  pose proof (ord_range c). lia.
Qed.

Lemma be_bytes_value v : be_bytes (length v) (be_value v) = v.
Proof.
  induction v as [|c v IH] using rev_ind; [done|].
  rewrite be_value_snoc, length_app. simpl.
  replace (length v + 1)%nat with (S (length v)) by lia. cbn [be_bytes].
  pose proof (ord_range c).
  replace ((be_value v * 256 + ord c) / 256) with (be_value v)
    by (apply Z.div_unique with (r := ord c); lia).
  replace ((be_value v * 256 + ord c) mod 256) with (ord c)
    by (apply Z.mod_unique with (q := be_value v); lia).
  by rewrite IH, byte_of_ord.
Qed.

Lemma be_bytes_zero k : be_bytes k 0 = replicate k x00.
Proof.
  induction k as [|k IH]; [done|]. cbn [be_bytes].
  change (0 / 256) with 0. change (0 `mod` 256) with 0. rewrite IH.
  change (default x00 (Byte.of_N (Z.to_N 0))) with x00.
  change [x00] with (replicate 1 x00). rewrite <- replicate_add.
  by replace (k + 1)%nat with (S k) by lia.
Qed.

Lemma be_bytes_pad n k v :
  0 <= v < 256 ^ Z.of_nat n →
  be_bytes (k + n) v = replicate k x00 ++ be_bytes n v.
Proof.
  revert v. induction n as [|n IH]; intros v Hv.
  - simpl in Hv. replace v with 0 by lia. rewrite Nat.add_0_r, app_nil_r.
    apply be_bytes_zero.
  - replace (k + S n)%nat with (S (k + n)) by lia. cbn [be_bytes].
    rewrite IH, app_assoc; [done|].
    replace (Z.of_nat (S n)) with (Z.of_nat n + 1) in Hv by lia.
    rewrite Z.pow_add_r in Hv by lia. change (256 ^ 1) with 256 in Hv.
    split; [apply Z.div_pos; lia|apply Z.div_lt_upper_bound; lia].
Qed.

(** The code rebuilt from its prefix and the packed value of its last
    bytes is the code itself, but for the empty code, which becomes four
    zero bytes since [b[-0:]] is all of [b]. *)
Lemma repacked_code code :
  let var := last_n 4 code in
  but_last_n 4 code ++ neg_slice_from (length var) (be_bytes 4 (nunpack var))
  = match code with [] => [x00; x00; x00; x00] | _ => code end.
Proof.
  intros var. destruct code as [|c code]; [done|].
  assert (Hlen : (1 <= length var <= 4)%nat).
  { unfold var, last_n. rewrite length_drop. simpl. lia. }
  unfold neg_slice_from. destruct (length var) as [|n] eqn:En; [lia|].
  rewrite <- En. unfold nunpack.
  assert (Hpad : be_bytes 4 (be_value var)
                 = replicate (4 - length var) x00 ++ var).
  { replace 4%nat with ((4 - length var) + length var)%nat at 1 by lia.
    rewrite be_bytes_pad by apply be_value_bound.
    by rewrite be_bytes_value. }
  rewrite Hpad. unfold last_n at 1.
  rewrite length_app, length_replicate.
  replace (4 - length var + length var - length var)%nat
    with (length (replicate (4 - length var) x00))
    by (rewrite length_replicate; lia).
  rewrite drop_app_length. unfold var, but_last_n, last_n.
  apply take_drop.
Qed.

Section Admission.
Context {M : Type} `{!CMapBase M}.
Import CMapParser.

(** C10. A base-form group whose admission check returns the end CID 0
    is recorded whole in [drop_bfrange_items] and changes neither the
    target map nor the accepted entries, exactly as a group whose base
    lies in no known block; this is the case of the range from CID 0 to
    CID 0 whose base lies in a known block. *)
Theorem bfrange_group_end_zero_dropped (p : CMapParser.t M)
    (s e code : list byte) :
  let s1 := nunpack s in
  let e1 := nunpack e in
  let base := nunpack (last_n 4 code) in
  let dropped :=
    Mk (cmap p) (cmap_bfrange_items p)
      (drop_bfrange_items p ++ [BFRange s1 e1 base (base - s1)]) in
  length s = length e → (length s <= 4)%nat →
  (verify_char_set s1 e1 base = Some 0 →
     bfrange_group [PSStr s; PSStr e; PSStr code] p = Ok dropped) ∧
  (verify_char_set s1 e1 base = None →
     bfrange_group [PSStr s; PSStr e; PSStr code] p = Ok dropped) ∧
  (s1 = 0 → e1 = 0 → is_Some (get_unicode_charset_entry base) →
     verify_char_set s1 e1 base = Some 0).
Proof.
  intros s1 e1 base dropped Hlen _.
  split; [|split].
  - intros Hv. unfold bfrange_group.
    rewrite bool_decide_eq_false_2 by (intros H; by apply H).
    fold s1 e1 base. by rewrite Hv.
  - intros Hv. unfold bfrange_group.
    rewrite bool_decide_eq_false_2 by (intros H; by apply H).
    fold s1 e1 base. by rewrite Hv.
  - intros Hs He [item Hitem]. unfold verify_char_set.
    rewrite Hitem, Hs, He. by case_bool_decide.
Qed.

End Admission.

Lemma bfrange_group_end_zero_dropped_witness :
  CMapParser.bfrange_group
    (CMapBase0 := FileUnicodeMap.base (fun _ => Raise KeyError))
    [PSStr [x00; x00]; PSStr [x00; x00]; PSStr [x00; x41]]
    (CMapParser.Mk FileUnicodeMap.init [] [])
  = Ok (CMapParser.Mk FileUnicodeMap.init [] [BFRange 0 0 65 65]).
Proof.
  pose proof (bfrange_group_end_zero_dropped
                (CMapBase0 := FileUnicodeMap.base (fun _ => Raise KeyError))
                (CMapParser.Mk FileUnicodeMap.init [] [])
                [x00; x00] [x00; x00] [x00; x41] eq_refl) as H.
  simpl in H. destruct H as (_ & _ & H3); [lia|].
  pose proof (bfrange_group_end_zero_dropped
                (CMapBase0 := FileUnicodeMap.base (fun _ => Raise KeyError))
                (CMapParser.Mk FileUnicodeMap.init [] [])
                [x00; x00] [x00; x00] [x00; x41] eq_refl) as H.
  simpl in H. destruct H as (H1 & _ & _); [lia|].
  apply H1. apply H3; [reflexivity..|]. by eexists.
Defined.

(** The entry accepted for a range that is not reversed runs forwards and
    stays in the block of its base. *)
Lemma accepted_entry_wf s1 e1 base e2 :
  CMapParser.verify_char_set s1 e1 base = Some e2 → s1 <= e1 →
  wf_entry (BFRange s1 e2 base (base - s1)).
Proof.
  unfold CMapParser.verify_char_set.
  destruct (get_unicode_charset_entry base) as [item|] eqn:E; [|done].
  apply charset_entry_bounds in E. unfold wf_entry. simpl.
  case_bool_decide; intros [= <-] Hle; lia.
Qed.

Section Truncation.
Context (name2unicode : string → result utext).
Import CMapParser.
#[local] Existing Instance FileUnicodeMap.base.

(** C1, as the code has it. A base-form group whose base lies in a known
    block, whose block ends before [e1 - s1] steps and whose start CID is
    not 0 installs the start CID alone, mapped to the text of [code];
    the accepted entry is [(s1, s1, base, base - s1)]; no other CID of
    the table changes, in particular none after [s1]; and nothing is
    added to [drop_bfrange_items]. *)
Theorem bfrange_group_keeps_start_only (p : CMapParser.t FileUnicodeMap.t)
    (s e code : list byte) (item : Z * Z) :
  let s1 := nunpack s in
  let e1 := nunpack e in
  let var := last_n 4 code in
  let base := nunpack var in
  let x := match code with [] => [x00; x00; x00; x00] | _ => code end in
  length s = length e → (length s <= 4)%nat →
  get_unicode_charset_entry base = Some item →
  item.2 - base + s1 < e1 →
  s1 ≠ 0 →
  ∃ p',
    bfrange_group (CMapBase0 := FileUnicodeMap.base name2unicode)
      [PSStr s; PSStr e; PSStr code] p = Ok p' ∧
    FileUnicodeMap.cid2unichr (cmap p')
      = <[s1 := UDecode x]> (FileUnicodeMap.cid2unichr (cmap p)) ∧
    (∀ cid, cid ≠ s1 →
       FileUnicodeMap.cid2unichr (cmap p') !! cid
       = FileUnicodeMap.cid2unichr (cmap p) !! cid) ∧
    FileUnicodeMap.bfranges (cmap p') = FileUnicodeMap.bfranges (cmap p) ∧
    cmap_bfrange_items p'
      = cmap_bfrange_items p ++ [BFRange s1 s1 base (base - s1)] ∧
    drop_bfrange_items p' = drop_bfrange_items p.
Proof.
  intros s1 e1 var base x Hlen _ Hitem Htrunc Hs1.
  pose proof (charset_entry_bounds _ _ Hitem) as Hb.
  pose proof (repacked_code code) as Hx. simpl in Hx. fold var base x in Hx.
  unfold bfrange_group.
  rewrite bool_decide_eq_false_2 by (intros H; by apply H).
  fold s1 e1 var base. unfold verify_char_set. rewrite Hitem.
  rewrite bool_decide_eq_true_2 by done. simpl.
  rewrite bool_decide_eq_true_2 by done.
  replace (s1 - s1 + 1) with 1 by lia. rewrite xrange_one. simpl.
  unfold pack_L. rewrite bool_decide_eq_true_2 by lia. simpl.
  replace (base + 0) with base by lia. replace (s1 + 0) with s1 by lia.
  fold base. rewrite Hx.
  eexists. split; [done|]. simpl. repeat split; try done.
  intros cid Hne. by rewrite lookup_insert_ne.
Qed.

End Truncation.

Lemma bfrange_group_keeps_start_only_witness :
  ∃ p',
    CMapParser.bfrange_group
      (CMapBase0 := FileUnicodeMap.base (fun _ => Raise KeyError))
      [PSStr [x00; x01]; PSStr [x00; x05]; PSStr [x00; x7e]]
      (CMapParser.Mk FileUnicodeMap.init [] []) = Ok p' ∧
    FileUnicodeMap.cid2unichr (CMapParser.cmap p')
      = {[ 1 := UDecode [x00; x7e] ]} ∧
    CMapParser.cmap_bfrange_items p' = [BFRange 1 1 126 125] ∧
    CMapParser.drop_bfrange_items p' = [].
Proof.
  destruct (bfrange_group_keeps_start_only (fun _ => Raise KeyError)
              (CMapParser.Mk FileUnicodeMap.init [] [])
              [x00; x01] [x00; x05] [x00; x7e] (0, 127))
    as (p' & Hp & Ht & _ & _ & Ha & Hd);
    [reflexivity | simpl; lia | reflexivity | by vm_compute | by vm_compute |].
  exists p'. repeat split; done.
Defined.

(** C1 as stated fails on the code: for [<0001> <0005> <007E>] the block of
    the base ends at 0x7F, so CID 2 would still map inside the block, yet
    CID 2 is not installed, and the tail is not recorded as dropped. *)
Lemma bfrange_group_truncation_counterexample :
  ∃ p',
    CMapParser.bfrange_group
      (CMapBase0 := FileUnicodeMap.base (fun _ => Raise KeyError))
      [PSStr [x00; x01]; PSStr [x00; x05]; PSStr [x00; x7e]]
      (CMapParser.Mk FileUnicodeMap.init [] []) = Ok p' ∧
    get_unicode_charset_entry 0x7e = Some (0, 0x7f) ∧
    0x7e + (2 - 1) <= 0x7f ∧
    FileUnicodeMap.cid2unichr (CMapParser.cmap p') !! 2 = None ∧
    CMapParser.drop_bfrange_items p' = [].
Proof.
  eexists. split; [by vm_compute|]. split; [by vm_compute|].
  split; [lia|]. by vm_compute.
Qed.

(** ** The [endcidchar] and [endcidrange] handlers insert by [add_all] *)

Lemma choplist_fuel_pairs {A B} (f g : A → B) (l : list A) : ∀ fuel,
  (length l <= fuel)%nat →
  choplist_fuel fuel 2 (l ≫= fun x => [f x; g x]) = (fun x => [f x; g x]) <$> l.
Proof.
  induction l as [|x l IH]; intros fuel Hf.
  - by destruct fuel.
  - destruct fuel as [|fuel]; [simpl in Hf; lia|].
    cbn [mbind list_bind app choplist_fuel]. simpl length.
    rewrite bool_decide_eq_true_2 by lia.
    simpl. f_equal. apply IH. simpl in Hf. lia.
Qed.

Lemma choplist_pairs {A B} (f g : A → B) (l : list A) :
  choplist 2 (l ≫= fun x => [f x; g x]) = (fun x => [f x; g x]) <$> l.
Proof.
  unfold choplist. apply choplist_fuel_pairs.
  induction l as [|x l IH]; [done|].
  rewrite bind_cons, length_app. simpl. lia.
Qed.

(** [endcidchar] on pairs of strings, the first of at most four bytes: the
    second string of a pair is the code and the value of the first one is
    its CID. *)
Lemma do_ENDCIDCHAR_add_all (entries : list (list byte * list byte))
    (m : gmap Z node) b accepted dropped :
  Forall (fun e => (length e.1 <= 4)%nat) entries →
  CMapParser.do_ENDCIDCHAR
    (entries ≫= fun e => [PSStr e.1; PSStr e.2])
    (CMapParser.Mk (MkFileCMap m b) accepted dropped)
  = t ← add_all ((fun e => (e.2, nunpack e.1)) <$> entries) m;
    Ok (CMapParser.Mk (MkFileCMap t b) accepted dropped).
Proof.
  intros _. unfold CMapParser.do_ENDCIDCHAR. rewrite choplist_pairs. simpl.
  assert (H : ∀ m,
    for_each CMapParser.cidchar_pair
      ((fun e : list byte * list byte => [PSStr e.1; PSStr e.2]) <$> entries)
      (MkFileCMap m b)
    = t ← add_all ((fun e => (e.2, nunpack e.1)) <$> entries) m;
      Ok (MkFileCMap t b)).
  { clear m. induction entries as [|[cid code] entries IH]; intros m; [done|].
    unfold add_all in *. simpl.
    destruct (FileCMap.add_code2cid code (nunpack cid) m) as [t|]; [|done].
    simpl. apply IH. }
  rewrite H. by destruct (add_all _ m).
Qed.

Lemma last_n_length_le {A} n (s : list A) : (length (last_n n s) <= n)%nat.
Proof. unfold last_n. rewrite length_drop. lia. Qed.

(** A group of [endcidrange] whose bounds have the same length and the
    same prefix inserts the codes [prefix + pack(s1 + i)] for the CIDs
    [cid + i], for [i] from 0 to [e1 - s1]. *)
Lemma cidrange_group_add_all (s e : list byte) (cid : Z)
    (m : gmap Z node) b :
  let s1 := nunpack (last_n 4 s) in
  let e1 := nunpack (last_n 4 e) in
  length s = length e → but_last_n 4 s = but_last_n 4 e →
  CMapParser.cidrange_group [PSStr s; PSStr e; PSInt cid] (MkFileCMap m b)
  = t ← add_all
          ((fun i => (but_last_n 4 s
                      ++ neg_slice_from (length (last_n 4 s))
                           (be_bytes 4 (s1 + i)), cid + i))
           <$> xrange (e1 - s1 + 1)) m;
    Ok (MkFileCMap t b).
Proof.
  intros s1 e1 Hlen Hpre. unfold CMapParser.cidrange_group.
  rewrite bool_decide_eq_false_2 by (intros H; by apply H).
  rewrite bool_decide_eq_false_2 by (intros H; by apply H).
  fold s1 e1.
  assert (Hs1 : 0 <= s1) by apply be_value_bound.
  assert (He1 : e1 < 2 ^ 32).
  { pose proof (be_value_bound (last_n 4 e)) as [_ Hb].
    pose proof (last_n_length_le 4 e) as Hl.
    eapply Z.lt_le_trans; [exact Hb|].
    change (2 ^ 32) with (256 ^ 4). apply Z.pow_le_mono_r; lia. }
  unfold xrange, range.
  assert (H : ∀ (js : list nat) m,
    Forall (fun j => 0 + Z.of_nat j < e1 - s1 + 1) js →
    for_each
      (fun i m0 =>
         b0 ← pack_L (s1 + i);
         add_code2cid
           (but_last_n 4 s ++ neg_slice_from (length (last_n 4 s)) b0)
           (cid + i) m0)
      ((fun j : nat => 0 + Z.of_nat j) <$> js) (MkFileCMap m b)
    = t ← add_all
            ((fun i => (but_last_n 4 s
                        ++ neg_slice_from (length (last_n 4 s))
                             (be_bytes 4 (s1 + i)), cid + i))
             <$> ((fun j : nat => 0 + Z.of_nat j) <$> js)) m;
      Ok (MkFileCMap t b)).
  { induction js as [|j js IH]; intros m0 Hjs; [done|].
    apply Forall_cons in Hjs as [Hj Hjs].
    unfold add_all in *. simpl. unfold pack_L.
    rewrite bool_decide_eq_true_2 by lia. simpl.
    destruct (FileCMap.add_code2cid _ _ m0) as [t|]; [|done].
    simpl. by apply IH. }
  apply H. apply Forall_forall. intros j Hj.
  apply elem_of_seq in Hj. lia.
Qed.

(** ** The merge pass and the fixup pass *)

Lemma for_each_app {A S} (f : A → S → result S) (a b : list A) (s : S) :
  for_each f (a ++ b) s = for_each f a s ≫= for_each f b.
Proof.
  revert s. induction a as [|x a IH]; intros s; simpl; [done|].
  destruct (f x s) as [s'|e]; simpl; [apply IH|done].
Qed.

Lemma insert_by_perm {A} (key : A → Z) x l : insert_by key x l ≡ₚ x :: l.
Proof.
  induction l as [|y l IH]; simpl; [done|].
  case_bool_decide; [done|]. rewrite IH. apply Permutation_swap.
Qed.

Lemma sorted_perm {A} (key : A → Z) l : sorted key l ≡ₚ l.
Proof.
  induction l as [|x l IH]; simpl; [done|].
  by rewrite insert_by_perm, IH.
Qed.

Lemma insert_by_sorted {A} (key : A → Z) x l :
  StronglySorted (fun a b => key a <= key b) l →
  StronglySorted (fun a b => key a <= key b) (insert_by key x l).
Proof.
  induction 1 as [|y l Hs IH Hy]; simpl; [repeat constructor|].
  case_bool_decide as Hxy.
  - constructor; [by constructor|]. constructor; [done|].
    eapply Forall_impl; [done|]. simpl. lia.
  - constructor; [done|].
    rewrite insert_by_perm. constructor; [lia|done].
Qed.

Lemma sorted_sorted {A} (key : A → Z) l :
  StronglySorted (fun a b => key a <= key b) (sorted key l).
Proof.
  induction l as [|x l IH]; simpl; [constructor|]. by apply insert_by_sorted.
Qed.

Lemma sorted_id {A} (key : A → Z) l :
  StronglySorted (fun a b => key a <= key b) l → sorted key l = l.
Proof.
  induction 1 as [|x l Hs IH Hx]; simpl; [done|]. rewrite IH.
  destruct Hx as [|y l Hy _]; simpl; [done|]. by rewrite bool_decide_eq_true_2.
Qed.

Section BackFill.
Context (name2unicode : string → result utext).
Import CMapParser.
#[local] Existing Instance FileUnicodeMap.base.

Lemma back_fill_range a b off0 (m : FileUnicodeMap.t) :
  (∀ i, a <= i < b → 0 <= i + off0 <= maxunicode) →
  ∃ m',
    for_each (fun i m =>
                add_cid2unichr (CMapBase := FileUnicodeMap.base name2unicode)
                  i (PSInt (i + off0)) m)
      (range a b) m = Ok m' ∧
    FileUnicodeMap.bfranges m' = FileUnicodeMap.bfranges m ∧
    ∀ i, FileUnicodeMap.cid2unichr m' !! i
         = if bool_decide (a <= i < b) then Some (UChr (i + off0))
           else FileUnicodeMap.cid2unichr m !! i.
Proof.
  remember (Z.to_nat (b - a)) as n eqn:En.
  revert a m En. induction n as [|n IH]; intros a m En Hv.
  - rewrite range_nil by lia. exists m. split; [done|]. split; [done|].
    intros i. rewrite bool_decide_eq_false_2 by lia. done.
  - rewrite range_cons by lia. cbn [for_each].
    change (add_cid2unichr (CMapBase := FileUnicodeMap.base name2unicode)
              a (PSInt (a + off0)) m)
      with (u ← unichr (a + off0); Ok (FileUnicodeMap.with_cid2unichr m a u)).
    unfold unichr.
    rewrite bool_decide_eq_true_2 by (apply Hv; lia). cbn [mbind result_bind].
    destruct (IH (a + 1) (FileUnicodeMap.with_cid2unichr m a (UChr (a + off0))))
      as (m' & Hm' & Hb & Ht); [lia|intros i Hi; apply Hv; lia|].
    exists m'. split; [done|]. split; [done|].
    intros i. rewrite Ht. simpl.
    destruct (decide (i = a)) as [->|Hne].
    + rewrite bool_decide_eq_false_2 by lia.
      rewrite bool_decide_eq_true_2 by lia. apply lookup_insert_eq.
    + rewrite lookup_insert_ne by done.
      repeat case_bool_decide; try done; lia.
Qed.

Lemma back_fill_spec prev item off0 (m : FileUnicodeMap.t) :
  (∀ i, in_gap prev item i → 0 <= i + off0 <= maxunicode) →
  ∃ m',
    back_fill (CMapBase0 := FileUnicodeMap.base name2unicode) prev item off0 m
      = Ok m' ∧
    FileUnicodeMap.bfranges m' = FileUnicodeMap.bfranges m ∧
    ∀ i, FileUnicodeMap.cid2unichr m' !! i
         = if bool_decide (in_gap prev item i) then Some (UChr (i + off0))
           else FileUnicodeMap.cid2unichr m !! i.
Proof.
  intros Hv. unfold back_fill.
  destruct (back_fill_range (cid_end prev + 1) (cid_start item) off0 m)
    as (m' & Hm' & Hb & Ht).
  { intros i Hi. apply Hv. unfold in_gap. lia. }
  exists m'. split; [done|]. split; [done|].
  intros i. rewrite Ht. unfold in_gap.
  repeat case_bool_decide; try done; lia.
Qed.

End BackFill.

Section FillPass.
Context (name2unicode : string → result utext).
Import CMapParser.
#[local] Existing Instance FileUnicodeMap.base.

Lemma fill_step_ok (st : fill_state FileUnicodeMap.t) item :
  fill_inv st → wf_entry item →
  (∀ lm prev, cur st = Some (lm, prev) → cid_start prev <= cid_start item) →
  ∃ st',
    fill_step (CMapBase0 := FileUnicodeMap.base name2unicode) true item st
      = Ok st' ∧
    fill_inv st' ∧
    FileUnicodeMap.bfranges (fill_cmap st')
      = FileUnicodeMap.bfranges (fill_cmap st) ∧
    ∃ lm', cur st' = Some (lm', item).
Proof.
  intros [Hres Hcur] Hwf Hle. unfold fill_step.
  destruct (cur st) as [[lm prev]|] eqn:Ecur.
  - destruct Hcur as (Hlm & Hprev & Hs & He & Ho).
    specialize (Hle lm prev eq_refl).
    case_bool_decide as Hoff.
    + destruct (back_fill_spec name2unicode prev item
                  (target_ucode item - cid_start item) (fill_cmap st))
        as (m' & Hm' & Hb & _).
      { intros i Hi. unfold in_gap, wf_entry, maxunicode in *. lia. }
      rewrite Hm'. simpl. eexists. split; [done|].
      split; [|split; [done|eauto]].
      split; [done|]. simpl. unfold wf_entry in *. simpl.
      repeat split; lia.
    + eexists. split; [done|]. split; [|split; [done|eauto]].
      split; simpl.
      * apply Forall_app. split; [done|]. by constructor.
      * unfold wf_entry in *. repeat split; lia.
  - eexists. split; [done|]. split; [|split; [done|eauto]].
    split; simpl; [done|]. unfold wf_entry in *. repeat split; lia.
Qed.

Lemma fill_loop_ok items : ∀ st : fill_state FileUnicodeMap.t,
  fill_inv st → Forall wf_entry items → sorted_by_start items →
  (∀ lm prev, cur st = Some (lm, prev) →
     Forall (fun it => cid_start prev <= cid_start it) items) →
  ∃ st',
    for_each (fill_step (CMapBase0 := FileUnicodeMap.base name2unicode) true)
      items st = Ok st' ∧
    fill_inv st' ∧
    FileUnicodeMap.bfranges (fill_cmap st')
      = FileUnicodeMap.bfranges (fill_cmap st).
Proof.
  induction items as [|item items IH]; intros st Hinv Hwf Hs Hle.
  - exists st. done.
  - apply Forall_cons in Hwf as [Hwf1 Hwf].
    apply StronglySorted_cons in Hs as [Hfirst Hs].
    destruct (fill_step_ok st item Hinv Hwf1)
      as (st1 & Hst1 & Hinv1 & Hb1 & lm' & Hc1).
    { intros lm prev Hc. specialize (Hle lm prev Hc).
      by apply Forall_cons in Hle as [? _]. }
    destruct (IH st1 Hinv1 Hwf Hs) as (st' & Hst' & Hinv' & Hb').
    { intros lm prev Hc. rewrite Hc1 in Hc. by injection Hc as _ <-. }
    exists st'. simpl. rewrite Hst1. simpl. split; [done|]. split; [done|].
    by rewrite Hb'.
Qed.

(** On entries that run forwards the merge pass returns, its result
    runs forwards and the index of the map is not touched. *)
Lemma fill_cmap_by_ranges_total l (m : FileUnicodeMap.t) :
  Forall wf_entry l →
  ∃ merged m',
    fill_cmap_by_ranges (CMapBase0 := FileUnicodeMap.base name2unicode)
      l true m = Ok (merged, m') ∧
    Forall wf_entry merged ∧
    FileUnicodeMap.bfranges m' = FileUnicodeMap.bfranges m.
Proof.
  intros Hwf. unfold fill_cmap_by_ranges.
  destruct (fill_loop_ok (sorted cid_start l) (MkFill [] None m))
    as (st' & Hst' & [Hres Hcur] & Hb).
  - split; simpl; [constructor|done].
  - by rewrite sorted_perm.
  - apply sorted_sorted.
  - intros lm prev Hc. done.
  - rewrite Hst'. simpl. eexists _, _. split; [done|]. split; [|done].
    destruct (cur st') as [[lm prev]|]; [|done].
    apply Forall_app. split; [done|]. constructor; [tauto|done].
Qed.

Lemma is_subset_of_ranges_None l r :
  is_subset_of_ranges l r = None →
  ∀ x, x ∈ l → x ≠ r → ¬ contained_in r x.
Proof.
  induction l as [|y l IH]; intros H x Hx Hne; [by apply elem_of_nil in Hx|].
  simpl in H. case_bool_decide as Hy.
  - apply elem_of_cons in Hx as [->|Hx]; [done|]. by apply IH.
  - destruct (bool_decide (target_ucode r >= target_ucode y)
              && bool_decide (target_ucode r + cid_end r - cid_start r
                              <= target_ucode y + cid_end y - cid_start y))
      eqn:Ec; [done|].
    apply elem_of_cons in Hx as [->|Hx]; [|by apply IH].
    unfold contained_in. intros [H1 H2].
    apply andb_false_iff in Ec as [Ec|Ec]; apply bool_decide_eq_false in Ec; lia.
Qed.

Lemma not_subset_spec merged r :
  r ∈ not_subset merged →
  r ∈ merged ∧ ∀ x, x ∈ merged → x ≠ r → ¬ contained_in r x.
Proof.
  unfold not_subset. intros H. apply list_elem_of_In in H.
  apply List.filter_In in H as [Hin Hf]. apply list_elem_of_In in Hin.
  split; [done|].
  destruct (is_subset_of_ranges merged r) eqn:E; [done|].
  by apply is_subset_of_ranges_None.
Qed.

End FillPass.

Section MergePass.
Context (name2unicode : string → result utext).
Import CMapParser.
#[local] Existing Instance FileUnicodeMap.base.

#[local] Abbreviation step :=
  (fill_step (CMapBase0 := FileUnicodeMap.base name2unicode) true).

Lemma fill_step_cur (st st' : fill_state FileUnicodeMap.t) item :
  step item st = Ok st' → ∃ lm, cur st' = Some (lm, item).
Proof.
  unfold fill_step. destruct (cur st) as [[lm prev]|].
  - case_bool_decide.
    + destruct (back_fill _ _ _ _); simpl; [|done]. intros [= <-]. simpl. eauto.
    + intros [= <-]. simpl. eauto.
  - intros [= <-]. simpl. eauto.
Qed.

Lemma fill_loop_start items : ∀ st0 st : fill_state FileUnicodeMap.t,
  for_each step items st0 = Ok st →
  sorted_by_start items →
  (∀ lm prev, cur st0 = Some (lm, prev) →
     cid_start lm <= cid_start prev ∧
     Forall (fun it => cid_start prev <= cid_start it) items) →
  ∀ lm prev, cur st = Some (lm, prev) → cid_start lm <= cid_start prev.
Proof.
  induction items as [|item items IH]; intros st0 st Hst Hs H0 lm prev Hc.
  - simpl in Hst. injection Hst as <-. by apply H0 in Hc as [? _].
  - simpl in Hst. destruct (step item st0) as [st1|] eqn:E1; [|done].
    simpl in Hst. apply StronglySorted_cons in Hs as [Hfirst Hs].
    eapply (IH st1 st Hst Hs); [|done].
    intros lm1 prev1 Hc1. unfold fill_step in E1.
    destruct (cur st0) as [[lm0 prev0]|] eqn:Ec0.
    + destruct (H0 lm0 prev0 eq_refl) as [Hle Hall].
      apply Forall_cons in Hall as [Hp0 _].
      case_bool_decide.
      * destruct (back_fill _ _ _ _); simpl in E1; [|done].
        injection E1 as <-. simpl in Hc1. injection Hc1 as <- <-. simpl.
        split; [lia|done].
      * injection E1 as <-. simpl in Hc1. injection Hc1 as <- <-.
        split; [lia|done].
    + injection E1 as <-. simpl in Hc1. injection Hc1 as <- <-.
      split; [lia|done].
Qed.

(** C5, as the code has it. In the merge pass over the entries sorted by
    [cid_start], when [item] follows [prev] and has its offset
    [target_ucode - cid_start], and [cid + offset] is a code point for
    every CID strictly between the end of [prev] and the start of [item]:
    the entry pending for [prev] is replaced by one entry that keeps its
    start and base, which is no later than the start of [prev], and
    ends where [item] ends; nothing is appended to the result; and exactly
    the CIDs of the gap are set to [unichr(cid + offset)]. A pass over two
    such entries returns the single merged entry. Entries [(0,4,100,100)]
    and [(10,14,110,100)] give [(0,14,100,100)] and CIDs 5 to 9 mapped to
    [cid + 100]. *)
Theorem fill_merges_same_offset :
  (∀ (m : FileUnicodeMap.t) pre prev item st,
     sorted_by_start (pre ++ [prev; item]) →
     for_each step (pre ++ [prev]) (MkFill [] None m) = Ok st →
     target_ucode item - cid_start item = target_ucode prev - cid_start prev →
     (∀ i, in_gap prev item i →
        0 <= i + (target_ucode item - cid_start item) <= maxunicode) →
     ∃ last_merged st',
       cur st = Some (last_merged, prev) ∧
       cid_start last_merged <= cid_start prev ∧
       for_each step (pre ++ [prev; item]) (MkFill [] None m) = Ok st' ∧
       result_bfranges st' = result_bfranges st ∧
       cur st'
         = Some (BFRange (cid_start last_merged) (cid_end item)
                   (target_ucode last_merged)
                   (target_ucode item - cid_start item), item) ∧
       ∀ i, FileUnicodeMap.cid2unichr (fill_cmap st') !! i
            = if bool_decide (in_gap prev item i)
              then Some (UChr (i + (target_ucode item - cid_start item)))
              else FileUnicodeMap.cid2unichr (fill_cmap st) !! i) ∧
  (∀ (m : FileUnicodeMap.t) a b,
     cid_start a <= cid_start b →
     target_ucode b - cid_start b = target_ucode a - cid_start a →
     (∀ i, in_gap a b i →
        0 <= i + (target_ucode b - cid_start b) <= maxunicode) →
     ∃ m',
       fill_cmap_by_ranges (CMapBase0 := FileUnicodeMap.base name2unicode)
         [a; b] true m
       = Ok ([BFRange (cid_start a) (cid_end b) (target_ucode a)
                (target_ucode b - cid_start b)], m') ∧
       ∀ i, FileUnicodeMap.cid2unichr m' !! i
            = if bool_decide (in_gap a b i)
              then Some (UChr (i + (target_ucode b - cid_start b)))
              else FileUnicodeMap.cid2unichr m !! i) ∧
  fill_cmap_by_ranges (CMapBase0 := FileUnicodeMap.base name2unicode)
    [BFRange 0 4 100 100; BFRange 10 14 110 100] true FileUnicodeMap.init
  = Ok ([BFRange 0 14 100 100],
        FileUnicodeMap.Mk
          (list_to_map [(5, UChr 105); (6, UChr 106); (7, UChr 107);
                        (8, UChr 108); (9, UChr 109)]) []).
Proof.
  split; [|split; [|by vm_compute]].
  - intros m pre prev item st Hs Hst Hoff Hv.
    assert (Hcur : ∃ lm, cur st = Some (lm, prev)).
    { rewrite for_each_app in Hst.
      destruct (for_each step pre _) as [s1|]; [|done]. simpl in Hst.
      destruct (step prev s1) as [s2|] eqn:E2; [|done].
      simpl in Hst. injection Hst as <-. by eapply fill_step_cur. }
    destruct Hcur as [lm Hcur].
    assert (Hle : cid_start lm <= cid_start prev).
    { eapply (fill_loop_start _ _ _ Hst); [| |done].
      - replace (pre ++ [prev; item]) with ((pre ++ [prev]) ++ [item]) in Hs
          by (by rewrite <- app_assoc).
        by apply StronglySorted_app_1_l in Hs.
      - done. }
    destruct (back_fill_spec name2unicode prev item
                (target_ucode item - cid_start item) (fill_cmap st) Hv)
      as (m' & Hm' & _ & Ht).
    exists lm. eexists. split; [done|]. split; [done|].
    replace (pre ++ [prev; item]) with ((pre ++ [prev]) ++ [item])
      by (by rewrite <- app_assoc).
    rewrite for_each_app, Hst. simpl. unfold fill_step. rewrite Hcur.
    rewrite bool_decide_eq_true_2 by done. rewrite Hm'. simpl.
    split; [done|]. simpl. split; [done|]. split; [done|]. done.
  - intros m a b Hab Hoff Hv.
    destruct (back_fill_spec name2unicode a b
                (target_ucode b - cid_start b) m Hv) as (m' & Hm' & _ & Ht).
    exists m'. split; [|done].
    unfold fill_cmap_by_ranges.
    rewrite sorted_id
      by (repeat constructor; done).
    simpl. unfold fill_step at 1. simpl.
    rewrite bool_decide_eq_true_2 by done. rewrite Hm'. done.
Qed.

End MergePass.

Lemma fill_merges_same_offset_witness :
  ∃ m',
    CMapParser.fill_cmap_by_ranges
      (CMapBase0 := FileUnicodeMap.base (fun _ => Raise KeyError))
      [BFRange 3 4 0x41 0x3e; BFRange 7 9 0x45 0x3e] true FileUnicodeMap.init
    = Ok ([BFRange 3 9 0x41 0x3e], m') ∧
    FileUnicodeMap.cid2unichr m' !! 5 = Some (UChr 0x43) ∧
    FileUnicodeMap.cid2unichr m' !! 7 = None.
Proof.
  destruct (proj1 (proj2 (fill_merges_same_offset (fun _ => Raise KeyError)))
              FileUnicodeMap.init (BFRange 3 4 0x41 0x3e) (BFRange 7 9 0x45 0x3e))
    as (m' & Hm' & Ht).
  - simpl. lia.
  - reflexivity.
  - unfold in_gap, maxunicode. simpl. lia.
  - exists m'. split; [exact Hm'|]. split; [exact (Ht 5)|exact (Ht 7)].
Defined.

(** C5 as stated fails on the code. The merged entry takes the end of the
    later entry: for [(0,20,100,100)] and [(10,14,110,100)] it is
    [(0,14,100,100)], which leaves CIDs 15 to 20 of the earlier entry out
    (the ranges [<0000> <0014> <0064>] and [<000A> <000E> <006E>] are both
    accepted). And for the entries [(1000,1,32,-968)] and
    [(2000,2001,1032,-968)], accepted from [<03E8> <0001> <0020>] and
    [<07D0> <07D1> <0408>], the first CID of the gap, 2, would map to
    [-966]: [unichr] raises [ValueError] and nothing is merged. *)
Lemma fill_merge_counterexample :
  (∃ m',
     (p ← CMapParser.do_ENDBFRANGE
            (CMapBase0 := FileUnicodeMap.base (fun _ => Raise KeyError))
            [PSStr [x00; x00]; PSStr [x00; x14]; PSStr [x00; x64];
             PSStr [x00; x0a]; PSStr [x00; x0e]; PSStr [x00; x6e]]
            (CMapParser.Mk FileUnicodeMap.init [] []);
      CMapParser.fill_cmap_by_ranges
        (CMapBase0 := FileUnicodeMap.base (fun _ => Raise KeyError))
        (CMapParser.cmap_bfrange_items p) true (CMapParser.cmap p))
     = Ok ([BFRange 0 14 100 100], m')) ∧
  CMapParser.fill_cmap_by_ranges
    (CMapBase0 := FileUnicodeMap.base (fun _ => Raise KeyError))
    [BFRange 0 20 100 100; BFRange 10 14 110 100] true FileUnicodeMap.init
  = Ok ([BFRange 0 14 100 100], FileUnicodeMap.init) ∧
  (p ← CMapParser.do_ENDBFRANGE
         (CMapBase0 := FileUnicodeMap.base (fun _ => Raise KeyError))
         [PSStr [x03; xe8]; PSStr [x00; x01]; PSStr [x00; x20];
          PSStr [x07; xd0]; PSStr [x07; xd1]; PSStr [x04; x08]]
         (CMapParser.Mk FileUnicodeMap.init [] []);
   Ok (CMapParser.cmap_bfrange_items p))
  = Ok [BFRange 1000 1 32 (-968); BFRange 2000 2001 1032 (-968)] ∧
  CMapParser.fill_cmap_by_ranges
    (CMapBase0 := FileUnicodeMap.base (fun _ => Raise KeyError))
    [BFRange 1000 1 32 (-968); BFRange 2000 2001 1032 (-968)] true
    FileUnicodeMap.init
  = Raise ValueError.
Proof. split; [eexists|]; by vm_compute. Qed.

Section Fixup.
Context (name2unicode : string → result utext).
Import CMapParser.
#[local] Existing Instance FileUnicodeMap.base.

#[local] Abbreviation fill :=
  (fill_cmap_by_ranges (CMapBase0 := FileUnicodeMap.base name2unicode)).
#[local] Abbreviation fixup :=
  (fixup_cmaps (CMapBase0 := FileUnicodeMap.base name2unicode)).

(** C2, as the code has it. For accepted entries that run forwards, at
    least one of them: the merge pass returns a list [merged]. If it has
    as many entries as were accepted, [fixup_cmaps] returns there and the
    index of the map stays what it was. Otherwise the index becomes the
    final list sorted by [cid_start], where the final list is [merged]
    without the entries whose Unicode interval lies inside that of a
    different entry of [merged], merged once more when an entry was
    removed; no entry that survives the removal lies inside a different
    entry of [merged]. *)
Theorem fixup_cmaps_index (p : CMapParser.t FileUnicodeMap.t) :
  cmap_bfrange_items p ≠ [] →
  Forall wf_entry (cmap_bfrange_items p) →
  ∃ merged m1,
    fill (cmap_bfrange_items p) true (cmap p) = Ok (merged, m1) ∧
    (length merged = length (cmap_bfrange_items p) →
       fixup p = Ok (Mk m1 (cmap_bfrange_items p) (drop_bfrange_items p)) ∧
       FileUnicodeMap.bfranges m1 = FileUnicodeMap.bfranges (cmap p)) ∧
    (length merged ≠ length (cmap_bfrange_items p) →
       ∃ final m2,
         (if bool_decide (length (not_subset merged) ≠ length merged)
          then fill (not_subset merged) true m1
          else Ok (not_subset merged, m1)) = Ok (final, m2) ∧
         fixup p
         = Ok (Mk (FileUnicodeMap.Mk (FileUnicodeMap.cid2unichr m2)
                     (sorted cid_start final))
                 [] (drop_bfrange_items p)) ∧
         sorted_by_start (sorted cid_start final) ∧
         sorted cid_start final ≡ₚ final ∧
         ∀ r x, r ∈ not_subset merged → x ∈ merged → x ≠ r →
                ¬ contained_in r x).
Proof.
  intros Hne Hwf.
  destruct (fill_cmap_by_ranges_total name2unicode _ (cmap p) Hwf)
    as (merged & m1 & Hfill & Hwfm & Hb1).
  exists merged, m1. split; [done|]. split.
  - intros Hlen. split; [|done]. unfold fixup_cmaps.
    destruct (cmap_bfrange_items p) as [|it its] eqn:Eit; [done|].
    rewrite Hfill. simpl. by rewrite bool_decide_eq_true_2.
  - intros Hlen.
    assert (Hwfr : Forall wf_entry (not_subset merged)).
    { rewrite Forall_forall in Hwfm |- *. intros r Hr. apply Hwfm.
      by apply not_subset_spec in Hr as [? _]. }
    assert (Hsecond : ∃ final m2,
              (if bool_decide (length (not_subset merged) ≠ length merged)
               then fill (not_subset merged) true m1
               else Ok (not_subset merged, m1)) = Ok (final, m2)).
    { case_bool_decide; [|eauto].
      destruct (fill_cmap_by_ranges_total name2unicode _ m1 Hwfr)
        as (final & m2 & Hf & _). eauto. }
    destruct Hsecond as (final & m2 & Hsecond).
    exists final, m2. split; [done|]. split; [|split; [|split]].
    + unfold fixup_cmaps.
      destruct (cmap_bfrange_items p) as [|it its] eqn:Eit; [done|].
      rewrite Hfill. simpl. rewrite bool_decide_eq_false_2 by done.
      fold (not_subset merged). rewrite Hsecond. done.
    + apply sorted_sorted.
    + apply sorted_perm.
    + intros r x Hr Hx Hxr.
      apply not_subset_spec in Hr as [_ Hr]. by apply Hr.
Qed.

End Fixup.

Lemma fixup_cmaps_index_witness :
  ∃ p',
    CMapParser.fixup_cmaps
      (CMapBase0 := FileUnicodeMap.base (fun _ => Raise KeyError))
      (CMapParser.Mk FileUnicodeMap.init
         [BFRange 10 14 110 100; BFRange 0 4 100 100; BFRange 20 21 0x41 45]
         [])
    = Ok p' ∧
    FileUnicodeMap.bfranges (CMapParser.cmap p')
    = [BFRange 0 14 100 100; BFRange 20 21 0x41 45].
Proof.
  destruct (fixup_cmaps_index (fun _ => Raise KeyError)
              (CMapParser.Mk FileUnicodeMap.init
                 [BFRange 10 14 110 100; BFRange 0 4 100 100;
                  BFRange 20 21 0x41 45] []))
    as (merged & m1 & Hfill & _ & Hmerged).
  - done.
  - unfold wf_entry. repeat constructor; simpl; lia.
  - vm_compute in Hfill. injection Hfill as <- <-.
    destruct Hmerged as (final & m2 & Hsecond & Hfix & _); [simpl; lia|].
    vm_compute in Hsecond. injection Hsecond as <- <-.
    eexists. split; [exact Hfix|]. reflexivity.
Defined.

(** C2 as stated fails on the code. With the single accepted entry
    [(1,2,65,64)], from [<0001> <0002> <0041>], nothing is merged and
    [fixup_cmaps] returns before it assigns the index, which stays empty.
    And with the six ranges below, all accepted, the stored index holds
    [(200,202,105,-95)], whose Unicode interval 105..107 lies inside the
    interval 100..114 of the stored entry [(0,14,100,100)], which the
    second merge made. *)
Lemma fixup_cmaps_counterexample :
  (∃ p',
     (p ← CMapParser.do_ENDBFRANGE
            (CMapBase0 := FileUnicodeMap.base (fun _ => Raise KeyError))
            [PSStr [x00; x01]; PSStr [x00; x02]; PSStr [x00; x41]]
            (CMapParser.Mk FileUnicodeMap.init [] []);
      CMapParser.fixup_cmaps
        (CMapBase0 := FileUnicodeMap.base (fun _ => Raise KeyError)) p)
     = Ok p' ∧
     CMapParser.cmap_bfrange_items p' = [BFRange 1 2 65 64] ∧
     FileUnicodeMap.bfranges (CMapParser.cmap p') = []) ∧
  (∃ p',
     (p ← CMapParser.do_ENDBFRANGE
            (CMapBase0 := FileUnicodeMap.base (fun _ => Raise KeyError))
            [PSStr [x00; x00]; PSStr [x00; x04]; PSStr [x00; x64];
             PSStr [x00; x05]; PSStr [x00; x06]; PSStr [x00; x32];
             PSStr [x00; x0a]; PSStr [x00; x0e]; PSStr [x00; x6e];
             PSStr [x00; x64]; PSStr [x00; x78]; PSStr [x00; x28];
             PSStr [x00; x82]; PSStr [x00; x87]; PSStr [x00; x46];
             PSStr [x00; xc8]; PSStr [x00; xca]; PSStr [x00; x69]]
            (CMapParser.Mk FileUnicodeMap.init [] []);
      CMapParser.fixup_cmaps
        (CMapBase0 := FileUnicodeMap.base (fun _ => Raise KeyError)) p)
     = Ok p' ∧
     FileUnicodeMap.bfranges (CMapParser.cmap p')
     = [BFRange 0 14 100 100; BFRange 100 135 40 (-60);
        BFRange 200 202 105 (-95)] ∧
     contained_in (BFRange 200 202 105 (-95)) (BFRange 0 14 100 100)).
Proof.
  split; eexists; (split; [by vm_compute|]); [done|].
  split; [done|]. unfold contained_in. simpl. lia.
Qed.

(** ** The identity map *)

Lemma be16_values_length s : length (be16_values s) = (length s / 2)%nat.
Proof.
  assert (H : ∀ n s, (length s <= n)%nat →
                length (be16_values s) = (length s / 2)%nat).
  { clear s. induction n as [|n IH]; intros s Hn.
    - destruct s; [done|simpl in Hn; lia].
    - destruct s as [|hi [|lo s]]; [done..|].
      cbn [be16_values length] in *.
      rewrite IH by lia.
      replace (S (S (length s))) with (length s + 1 * 2)%nat by lia.
      rewrite Nat.div_add by lia. lia. }
  by apply (H (length s)).
Qed.

(** C3, as the code has it. [get_cmap("Identity-H")] returns the identity
    store without reading a resource file and without touching the cache.
    Its [decode] gives the big-endian 16-bit values of the byte pairs when
    the length is even, and the empty sequence for a single byte; for an
    odd length of three or more [struct.unpack] is handed the whole string
    and raises [struct.error], as for the three bytes [00 41 42]. *)
Theorem identity_decode (resources : gmap string CMapDB.module_data)
    (_cmap_cache : gmap string CMapDB.cmap_obj) (b : list byte) :
  CMapDB.get_cmap resources _cmap_cache "Identity-H"
    = (Ok (CMapDB.IdentityCMap 0), _cmap_cache, []) ∧
  CMapDB.decode (CMapDB.IdentityCMap 0) b
    = (if Nat.even (length b) || bool_decide (length b = 1%nat)
       then Ok (be16_values b) else Raise StructError) ∧
  length (be16_values b) = (length b / 2)%nat ∧
  CMapDB.decode (CMapDB.IdentityCMap 0) [x00; x41; x42] = Raise StructError.
Proof.
  split; [done|]. split; [|split; [apply be16_values_length|done]].
  change (CMapDB.decode (CMapDB.IdentityCMap 0) b) with (IdentityCMap.decode b).
  unfold IdentityCMap.decode, unpack_H.
  pose proof (Nat.div_mod_eq (length b) 2) as Hdm.
  pose proof (Nat.mod_upper_bound (length b) 2) as Hm.
  set (n := (length b / 2)%nat) in *.
  destruct (Nat.even (length b)) eqn:He.
  - apply Nat.even_spec in He as [k Hk]. cbn [orb].
    assert (Hn : length b = (2 * n)%nat) by lia.
    case_bool_decide as Hn0.
    + by rewrite bool_decide_eq_true_2.
    + assert (n = 0%nat) as Hz by lia. rewrite Hz in Hn. by destruct b.
  - assert (Ho : Nat.odd (length b) = true)
      by (rewrite <- Nat.negb_even, He; done).
    apply Nat.odd_spec in Ho as [k Hk]. cbn [orb].
    assert (Hn : length b = (2 * n + 1)%nat) by lia.
    case_bool_decide as Hn0.
    + rewrite bool_decide_eq_false_2 by lia.
      by rewrite bool_decide_eq_false_2 by lia.
    + assert (n = 0%nat) as Hz by lia. rewrite Hz in Hn.
      rewrite bool_decide_eq_true_2 by lia.
      by destruct b as [|c [|c' b]].
Qed.

(** ** [use_cmap]: replacement by new copies *)

Module StoreFacts.
Import Store.

Lemma repr_mono (P Q : loc → Prop) n h v t :
  (∀ l, P l → Q l) → repr P n h v t → repr Q n h v t.
Proof.
  intros HPQ. revert v t. induction n as [|n IH]; intros v t.
  - destruct v, t; simpl; done.
  - destruct v as [a|l], t as [b|m]; simpl; try done.
    intros (HP & d & Hd & Hk). split; [by apply HPQ|].
    exists d. split; [done|]. intros k. specialize (Hk k).
    destruct (d !! k), (m !! k); simpl in *; try done. by apply IH.
Qed.

(** A value stays what it represents when the dictionaries it is made of
    are not touched. *)
Lemma repr_frame (P : loc → Prop) n (h h2 : heap) v t :
  (∀ l d, P l → h !! l = Some d → h2 !! l = Some d) →
  repr P n h v t → repr P n h2 v t.
Proof.
  intros Hfr. revert v t. induction n as [|n IH]; intros v t.
  - destruct v, t; simpl; done.
  - destruct v as [a|l], t as [b|m]; simpl; try done.
    intros (HP & d & Hd & Hk). split; [done|].
    exists d. split; [by apply Hfr|]. intros k. specialize (Hk k).
    destruct (d !! k), (m !! k); simpl in *; try done. by apply IH.
Qed.

Lemma new_dict_fresh (h : heap) : new_dict h ∉ dom h.
Proof. unfold new_dict. exact (is_fresh (dom h)). Qed.

End StoreFacts.
Module StoreProofs.
Import Store StoreFacts.

Section Loop.
Context (n : nat) (cp : loc → loc → heap → option heap).
Context (Hcp : ∀ n', n = S n' → copy_ok n' cp).
Context (h0 : heap) (dst : loc) (dd0 : dict) (t : gmap Z node) (S : gset loc).
Context (Hdst : h0 !! dst = Some dd0) (HdstS : dst ∉ S) (HS : S ⊆ dom h0).

Lemma dst_in_dom : dst ∈ dom h0.
Proof. apply elem_of_dom. eauto. Qed.

Lemma loop_step_int k a done h :
  k ∉ done → t !! k = Some (Leaf a) →
  loop_inv n h0 dst dd0 t done h →
  ∃ h', setitem dst k (VInt a) h = Some h' ∧
        loop_inv n h0 dst dd0 t (done ∪ {[k]}) h'.
Proof.
  intros Hk Ht (Hdom & Hold & dd & Hdd & Hkeys).
  unfold setitem. rewrite Hdd. simpl. eexists. split; [done|].
  split; [|split].
  - rewrite dom_insert_L. set_solver.
  - intros l Hl Hne. rewrite lookup_insert_ne by done. by apply Hold.
  - exists (<[k := VInt a]> dd). split; [apply lookup_insert_eq|].
    intros k'. destruct (decide (k' = k)) as [->|Hne].
    + rewrite decide_True by set_solver.
      exists (Leaf a), (VInt a). rewrite lookup_insert_eq.
      split; [done|]. split; [done|]. by destruct n.
    + specialize (Hkeys k'). rewrite lookup_insert_ne by done.
      destruct (decide (k' ∈ done)) as [Hin|Hnin].
      * rewrite decide_True by set_solver.
        destruct Hkeys as (tk & v' & Htk & Hv' & Hr).
        exists tk, v'. split; [done|]. split; [done|].
        eapply repr_frame; [|done]. intros l d Hl Hld.
        rewrite lookup_insert_ne; [done|].
        intros <-. apply Hl, dst_in_dom.
      * rewrite decide_False by set_solver. done.
Qed.

Lemma loop_step_ref k s m done h :
  k ∉ done → t !! k = Some (Branch m) →
  repr (fun l => l ∈ S) n h0 (VRef s) (Branch m) →
  loop_inv n h0 dst dd0 t done h →
  ∃ h1 h',
    setitem dst k (VRef (new_dict h)) (<[new_dict h := ∅]> h) = Some h1 ∧
    cp (new_dict h) s h1 = Some h' ∧
    loop_inv n h0 dst dd0 t (done ∪ {[k]}) h'.
Proof.
  intros Hk Ht Hrepr (Hdom & Hold & dd & Hdd & Hkeys).
  destruct n as [|n'] eqn:En; [done|].
  simpl in Hrepr. destruct Hrepr as (HsS & ds & Hds & Hch).
  pose proof (new_dict_fresh h) as Hfresh.
  set (d := new_dict h) in *.
  pose proof dst_in_dom as Hdst0.
  assert (Hd0 : d ∉ dom h0) by set_solver.
  assert (Hdd' : d ≠ dst) by (intros ->; done).
  unfold setitem. rewrite lookup_insert_ne by done. rewrite Hdd. simpl.
  set (h1 := <[dst := <[k := VRef d]> dd]> (<[d := ∅]> h)).
  assert (Hagree : ∀ l, l ∈ dom h0 → l ≠ dst → h1 !! l = h0 !! l).
  { intros l Hl Hne. unfold h1.
    rewrite lookup_insert_ne by done.
    rewrite lookup_insert_ne by (intros <-; done). by apply Hold. }
  destruct (Hcp n' eq_refl h1 d s ds m S) as (h' & Hh' & Hpost).
  - rewrite Hagree; [done|set_solver|set_solver].
  - intros k2. specialize (Hch k2).
    destruct (ds !! k2), (m !! k2); simpl in *; try done.
    eapply repr_frame; [|done]. intros l dl Hl Hld.
    rewrite Hagree; [done|set_solver|set_solver].
  - unfold h1. rewrite lookup_insert_ne by done.
    rewrite lookup_insert_eq. eauto.
  - set_solver.
  - unfold h1. rewrite !dom_insert_L. set_solver.
  - exists h1, h'. split; [done|]. split; [done|].
    destruct Hpost as (Hdom' & Hold' & dd1 & dd1' & Hdd1 & Hdd1' & Hcopy).
    assert (Hdom1 : dom h ⊆ dom h1)
      by (unfold h1; rewrite !dom_insert_L; set_solver).
    assert (Hd1 : dd1 = ∅).
    { unfold h1 in Hdd1. rewrite lookup_insert_ne in Hdd1 by done.
      rewrite lookup_insert_eq in Hdd1. by injection Hdd1. }
    subst dd1.
    split; [|split].
    + set_solver.
    + intros l Hl Hne. rewrite Hold'; [by apply Hagree| |].
      * apply Hdom1. set_solver.
      * intros ->. done.
    + exists (<[k := VRef d]> dd). split.
      { rewrite Hold'; [apply lookup_insert_eq| |done].
        unfold h1. rewrite dom_insert_L. set_solver. }
      intros k'. destruct (decide (k' = k)) as [->|Hne].
      * rewrite decide_True by set_solver.
        exists (Branch m), (VRef d). rewrite lookup_insert_eq.
        split; [done|]. split; [done|]. simpl. split; [done|].
        exists dd1'. split; [done|]. intros k2. specialize (Hcopy k2).
        destruct (m !! k2) as [tk2|].
        -- destruct Hcopy as (v' & -> & Hr). simpl.
           eapply repr_mono; [|done]. intros l Hl Hl0. apply Hl.
           apply Hdom1. set_solver.
        -- rewrite Hcopy, lookup_empty. done.
      * specialize (Hkeys k'). rewrite lookup_insert_ne by done.
        destruct (decide (k' ∈ done)) as [Hin|Hnin].
        -- rewrite decide_True by set_solver.
           destruct Hkeys as (tk & v' & Htk & Hv' & Hr).
           exists tk, v'. split; [done|]. split; [done|].
           eapply repr_frame; [|done]. intros l dl Hl Hld.
           assert (Hlh : l ∈ dom h) by (apply elem_of_dom; eauto).
           rewrite Hold'.
           ++ unfold h1. rewrite lookup_insert_ne by (intros <-; apply Hl, Hdst0).
              rewrite lookup_insert_ne by (intros <-; done). done.
           ++ by apply Hdom1.
           ++ intros ->. done.
        -- rewrite decide_False by set_solver. done.
Qed.

Lemma copy_items_ok items : ∀ done h,
  NoDup items.*1 →
  (∀ k, k ∈ items.*1 → k ∉ done) →
  (∀ k v, (k, v) ∈ items →
     ∃ tk, t !! k = Some tk ∧ repr (fun l => l ∈ S) n h0 v tk) →
  loop_inv n h0 dst dd0 t done h →
  ∃ h', copy_items cp dst items h = Some h' ∧
        loop_inv n h0 dst dd0 t (done ∪ list_to_set items.*1) h'.
Proof.
  induction items as [|[k v] items IH]; intros done h Hnd Hnew Hsrc Hinv.
  - exists h. split; [done|]. simpl.
    by replace (done ∪ ∅) with done by set_solver.
  - simpl in Hnd. apply NoDup_cons in Hnd as [Hk Hnd].
    destruct (Hsrc k v) as (tk & Htk & Hr); [by left|].
    assert (Hkd : k ∉ done) by (apply Hnew; by left).
    assert (Hstep : ∃ h1,
              match v with
              | VRef s =>
                  h1 ← setitem dst k (VRef (new_dict h)) (<[new_dict h := ∅]> h);
                  cp (new_dict h) s h1
              | VInt _ => setitem dst k v h
              end = Some h1 ∧ loop_inv n h0 dst dd0 t (done ∪ {[k]}) h1).
    { destruct v as [a|s].
      - destruct tk as [b|m]; [|by destruct n].
        assert (a = b) as <- by (by destruct n).
        by apply loop_step_int.
      - destruct tk as [b|m]; [by destruct n|].
        destruct (loop_step_ref k s m done h) as (h1 & h' & H1 & H2 & H3);
          try done.
        exists h'. rewrite H1. simpl. done. }
    destruct Hstep as (h1 & Hh1 & Hinv1).
    destruct (IH (done ∪ {[k]}) h1) as (h' & Hh' & Hinv'); try done.
    + intros k' Hk'. apply not_elem_of_union. split.
      * apply Hnew. by right.
      * intros ->%elem_of_singleton. done.
    + intros k' v' Hel. apply Hsrc. by right.
    + exists h'. simpl. rewrite Hh1. simpl. split; [done|].
      rewrite (assoc_L (∪)). exact Hinv'.
Qed.

End Loop.

Section Fuel.
Context (iteritems : dict → list (Z * val)).
Context (Hiter : ∀ d, iteritems d ≡ₚ map_to_list d).

Lemma iteritems_lookup d k v : (k, v) ∈ iteritems d ↔ d !! k = Some v.
Proof. rewrite Hiter. apply elem_of_map_to_list. Qed.

Lemma iteritems_NoDup d : NoDup (iteritems d).*1.
Proof. rewrite Hiter. apply NoDup_fst_map_to_list. Qed.

Lemma iteritems_keys d k : k ∈ (iteritems d).*1 ↔ is_Some (d !! k).
Proof.
  rewrite list_elem_of_fmap. split.
  - intros ([k' v] & -> & Hel). apply iteritems_lookup in Hel. eauto.
  - intros [v Hv]. exists (k, v). split; [done|]. by apply iteritems_lookup.
Qed.

(** With more fuel than the source has levels, [copy] returns. *)
Lemma copy_ok_fuel fuel : ∀ n, (n < fuel)%nat → copy_ok n (copy iteritems fuel).
Proof.
  induction fuel as [|fuel IH]; intros n Hn; [lia|].
  intros h dst src ds t S Hsrc Hch [dd Hdd] HdstS HS. simpl. rewrite Hsrc. simpl.
  destruct (copy_items_ok n (copy iteritems fuel)) with
    (h0 := h) (dst := dst) (dd0 := dd) (t := t) (S := S)
    (items := iteritems ds) (done := (∅ : gset Z)) (h := h)
    as (h' & Hh' & Hinv); try done.
  - intros n' ->. apply IH. lia.
  - apply iteritems_NoDup.
  - intros k v Hel. apply iteritems_lookup in Hel. specialize (Hch k).
    rewrite Hel in Hch. destruct (t !! k) as [tk|]; [|done]. eauto.
  - split; [done|]. split; [done|]. exists dd. split; [done|].
    intros k. rewrite decide_False by set_solver. done.
  - exists h'. split; [done|].
    destruct Hinv as (Hdom & Hold & dd' & Hdd' & Hkeys).
    split; [done|]. split; [done|]. exists dd, dd'. split; [done|]. split; [done|].
    intros k. specialize (Hkeys k). specialize (Hch k).
    destruct (decide (k ∈ ∅ ∪ list_to_set (iteritems ds).*1)) as [Hin|Hnin].
    + destruct Hkeys as (tk & v' & -> & Hv' & Hr). eauto.
    + assert (Hnone : ds !! k = None).
      { apply eq_None_not_Some. intros Hs. apply Hnin.
        apply elem_of_union. right. apply elem_of_list_to_set.
        by apply iteritems_keys. }
      rewrite Hnone in Hch. destruct (t !! k); [done|]. done.
Qed.

End Fuel.
End StoreProofs.

(** C7. [self.use_cmap(cmap)] when the source holds the trie [t], the
    dictionaries nested in it are in [S], the root of [self] is not one of
    them, and the fuel exceeds the levels of the source: the call returns;
    at every key of the source, [self] then holds a copy of the source
    item made only of dictionaries that did not exist before the call,
    equal to the source subtree whatever [self] held there, an [int] being
    stored as it is; at every key absent from the source [self] holds the
    item it held before; and no dictionary that existed before the call is
    changed, but the root of [self]. *)
Theorem use_cmap_replaces_subtrees
    (iteritems : Store.dict → list (Z * Store.val))
    (h : Store.heap) (self cmap : Store.loc) (dself dcmap : Store.dict)
    (t : gmap Z node) (S : gset Store.loc) (n fuel : nat) :
  (∀ d, iteritems d ≡ₚ map_to_list d) →
  h !! self = Some dself → h !! cmap = Some dcmap →
  (∀ k, Store.opt_rel (Store.repr (fun l => l ∈ S) n h)
          (dcmap !! k) (t !! k)) →
  self ∉ S → S ⊆ dom h → (n < fuel)%nat →
  ∃ h' dself',
    Store.use_cmap iteritems fuel self cmap h = Some h' ∧
    h' !! self = Some dself' ∧
    (∀ k tk, t !! k = Some tk →
       ∃ v', dself' !! k = Some v' ∧
             Store.repr (fun l => l ∉ dom h) n h' v' tk) ∧
    (∀ k, t !! k = None → dself' !! k = dself !! k) ∧
    (∀ l, l ∈ dom h → l ≠ self → h' !! l = h !! l).
Proof.
  intros Hiter Hself Hcmap Hrepr HselfS HS Hfuel.
  destruct (StoreProofs.copy_ok_fuel iteritems Hiter fuel n Hfuel
              h self cmap dcmap t S) as (h' & Hh' & Hpost); try done.
  destruct Hpost as (_ & Hold & dd & dd' & Hdd & Hdd' & Hkeys).
  rewrite Hself in Hdd. injection Hdd as <-.
  exists h', dd'. split; [done|]. split; [done|]. split; [|split; [|done]].
  - intros k tk Htk. specialize (Hkeys k). by rewrite Htk in Hkeys.
  - intros k Htk. specialize (Hkeys k). by rewrite Htk in Hkeys.
Qed.

Lemma repr_le (P : Store.loc → Prop) n n' h v t :
  (n <= n')%nat → Store.repr P n h v t → Store.repr P n' h v t.
Proof.
  revert n' v t. induction n as [|n IH]; intros n' v t Hle.
  - destruct v, t; simpl; try done. by destruct n'.
  - destruct n' as [|n']; [lia|].
    destruct v as [a|l], t as [b|m]; simpl; try done.
    intros (HP & d & Hd & Hk). split; [done|].
    exists d. split; [done|]. intros k. specialize (Hk k).
    destruct (d !! k), (m !! k); simpl in *; try done.
    apply IH; [lia|done].
Qed.

(** On trie values [use_cmap] is the union that prefers the source at
    every first byte: when [self] held the trie [tself] and [cmap] holds the
    trie [t], [self] holds [t ∪ tself] afterwards. *)
Lemma use_cmap_union
    (iteritems : Store.dict → list (Z * Store.val))
    (h : Store.heap) (self cmap : Store.loc) (dself dcmap : Store.dict)
    (t tself : gmap Z node) (S Sself : gset Store.loc) (n fuel : nat) :
  (∀ d, iteritems d ≡ₚ map_to_list d) →
  h !! self = Some dself → h !! cmap = Some dcmap →
  (∀ k, Store.opt_rel (Store.repr (fun l => l ∈ S) n h)
          (dcmap !! k) (t !! k)) →
  (∀ k, Store.opt_rel (Store.repr (fun l => l ∈ Sself) n h)
          (dself !! k) (tself !! k)) →
  self ∉ S → self ∉ Sself → S ⊆ dom h → (n < fuel)%nat →
  ∃ h' dself',
    Store.use_cmap iteritems fuel self cmap h = Some h' ∧
    h' !! self = Some dself' ∧
    ∀ k, Store.opt_rel
           (Store.repr (fun l => l ∉ dom h ∨ l ∈ Sself) n h')
           (dself' !! k) ((t ∪ tself) !! k).
Proof.
  intros Hiter Hself Hcmap Hrepr Hrself HselfS HselfS' HS Hfuel.
  destruct (StoreProofs.copy_ok_fuel iteritems Hiter fuel n Hfuel
              h self cmap dcmap t S) as (h' & Hh' & Hpost); try done.
  destruct Hpost as (_ & Hold & dd & dd' & Hdd & Hdd' & Hkeys).
  rewrite Hself in Hdd. injection Hdd as <-.
  exists h', dd'. split; [done|]. split; [done|].
  intros k. specialize (Hkeys k). rewrite lookup_union.
  destruct (t !! k) as [tk|] eqn:Htk.
  - destruct Hkeys as (v' & -> & Hr).
    rewrite union_Some_l. simpl.
    eapply StoreFacts.repr_mono; [|done]. intros l Hl. by left.
  - rewrite Hkeys, (left_id_L None _). specialize (Hrself k).
    destruct (dself !! k) as [v|], (tself !! k) as [tk|]; simpl in *; try done.
    eapply StoreFacts.repr_mono; [|eapply StoreFacts.repr_frame; [|done]].
    + intros l Hl. right. exact Hl.
    + intros l d Hl Hld. simpl in Hl. rewrite Hold; [done| |].
      * apply elem_of_dom. eauto.
      * intros ->. done.
Qed.

Lemma use_cmap_replaces_subtrees_witness :
  let dself : Store.dict :=
    <[0x81 := Store.VRef 1%nat]> {[ 0x20 := Store.VInt 1 ]} in
  let dcmap : Store.dict :=
    <[0x81 := Store.VRef 3%nat]> {[ 0x30 := Store.VInt 9 ]} in
  let h : Store.heap :=
    <[0%nat := dself]> (<[1%nat := {[ 0x40 := Store.VInt 5 ]}]>
    (<[2%nat := dcmap]> {[ 3%nat := {[ 0x41 := Store.VInt 6 ]} ]})) in
  let t : gmap Z node :=
    <[0x81 := Branch {[ 0x41 := Leaf 6 ]}]> {[ 0x30 := Leaf 9 ]} in
  ∃ h' dself',
    Store.use_cmap map_to_list 2%nat 0%nat 2%nat h = Some h' ∧
    h' !! 0%nat = Some dself' ∧
    (∀ k tk, t !! k = Some tk →
       ∃ v', dself' !! k = Some v' ∧
             Store.repr (fun l => l ∉ dom h) 1%nat h' v' tk) ∧
    (∀ k, t !! k = None → dself' !! k = dself !! k) ∧
    (∀ l, l ∈ dom h → l ≠ 0%nat → h' !! l = h !! l).
Proof.
  intros dself dcmap h t.
  apply (use_cmap_replaces_subtrees map_to_list h 0%nat 2%nat dself dcmap t
           {[ 3%nat ]} 1%nat 2%nat).
  - done.
  - reflexivity.
  - reflexivity.
  - intros k. unfold dcmap, t.
    destruct (decide (k = 0x81)) as [->|Hk1].
    + rewrite !lookup_insert_eq. simpl. split; [set_solver|].
      exists {[ 0x41 := Store.VInt 6 ]}. split; [reflexivity|].
      intros k2. destruct (decide (k2 = 0x41)) as [->|Hk2].
      * rewrite !lookup_singleton_eq. done.
      * rewrite !lookup_singleton_ne by done. done.
    + rewrite !lookup_insert_ne by done.
      destruct (decide (k = 0x30)) as [->|Hk2].
      * rewrite !lookup_singleton_eq. done.
      * rewrite !lookup_singleton_ne by done. done.
  - set_solver.
  - unfold h. rewrite !dom_insert_L. set_solver.
  - lia.
Defined.

(** The merge of [use_cmap] is not a deep merge: where both tries have a
    dictionary at byte 0x81, the code 0x81 0x40 of the destination is gone
    after the call and only the code 0x81 0x41 of the source is there, in
    a new dictionary; the old one is still in the store, unchanged. *)
Example use_cmap_not_deep_merge :
  let dself : Store.dict :=
    <[0x81 := Store.VRef 1%nat]> {[ 0x20 := Store.VInt 1 ]} in
  let dcmap : Store.dict :=
    <[0x81 := Store.VRef 3%nat]> {[ 0x30 := Store.VInt 9 ]} in
  let h : Store.heap :=
    <[0%nat := dself]> (<[1%nat := {[ 0x40 := Store.VInt 5 ]}]>
    (<[2%nat := dcmap]> {[ 3%nat := {[ 0x41 := Store.VInt 6 ]} ]})) in
  Store.use_cmap map_to_list 2%nat 0%nat 2%nat h
  = Some (<[0%nat := <[0x81 := Store.VRef 4%nat]>
                       (<[0x30 := Store.VInt 9]> {[ 0x20 := Store.VInt 1 ]})]>
          (<[4%nat := {[ 0x41 := Store.VInt 6 ]}]> h)).
Proof. by vm_compute. Qed.

(** * Further properties of the code *)

(** ** [FileCMap.add_code2cid]: errors and what insertion changes *)

Lemma add_from_cases d init l cid :
  (∃ d', FileCMap.add_from d init l cid = Ok d' ∧
         ∀ q n, q `prefix_of` init → walk d q ≠ Some (Leaf n)) ∨
  (FileCMap.add_from d init l cid = Raise TypeError ∧
   ∃ q n, q `prefix_of` init ∧ walk d q = Some (Leaf n)).
Proof.
  revert d. induction init as [|c init IH]; intros d.
  - destruct d as [n|m].
    + right. split; [done|]. exists [], n. done.
    + left. eexists. split; [done|]. intros q n Hq.
      apply prefix_nil_inv in Hq as ->. done.
  - destruct d as [n|m].
    + right. split; [done|]. exists [], n. split; [apply prefix_nil|done].
    + assert (Hsub : ∀ d1,
        m !! ord c = Some d1 ∨ (m !! ord c = None ∧ d1 = Branch ∅) →
        (∀ q n, q `prefix_of` init → walk d1 q ≠ Some (Leaf n)) →
        ∀ q n, q `prefix_of` (c :: init) → walk (Branch m) q ≠ Some (Leaf n)).
      { intros d1 Hd1 Hno q n Hq. destruct q as [|b q]; [done|].
        assert (b = c) as ->.
        { destruct Hq as [k Hk]. by injection Hk. }
        apply (prefix_cons_inv_2) in Hq. simpl.
        destruct Hd1 as [->|[-> ->]]; simpl; [by apply Hno|done]. }
      simpl. destruct (m !! ord c) as [d1|] eqn:Em.
      * destruct (IH d1) as [(d' & -> & Hno)|(-> & q & n & Hq & Hw)].
        -- left. eexists. split; [done|]. apply (Hsub d1); auto.
        -- right. split; [done|]. exists (c :: q), n.
           split; [by apply prefix_cons|]. simpl. by rewrite Em.
      * destruct (IH (Branch ∅)) as [(d' & -> & Hno)|(_ & q & n & Hq & Hw)].
        -- left. eexists. split; [done|]. apply (Hsub (Branch ∅)); auto.
        -- exfalso. destruct q; [done|]. simpl in Hw.
           by rewrite lookup_empty in Hw.
Qed.

(** X1. [add_code2cid] fails in exactly two ways: with [IndexError] on the
    empty code, and with [TypeError] when a proper prefix of the code is
    held for a CID; on every other code it returns. *)
Theorem add_code2cid_errors (code : list byte) (cid : Z) (t : gmap Z node) :
  (FileCMap.add_code2cid code cid t = Raise IndexError ↔ code = []) ∧
  (FileCMap.add_code2cid code cid t = Raise TypeError
     ↔ leaf_on_the_way t code) ∧
  ((∃ t', FileCMap.add_code2cid code cid t = Ok t')
     ↔ code ≠ [] ∧ ¬ leaf_on_the_way t code).
Proof.
  destruct (decide (code = [])) as [->|Hne].
  - assert (Hno : ¬ leaf_on_the_way t []).
    { intros (q & ext & n & Heq & Hext & _). by destruct q, ext. }
    split; [done|]. split; [split; [done|intros H; by apply Hno in H]|].
    split; [intros [t' H]; done|intros [H _]; done].
  - destruct (split_last_nonempty code Hne) as (init & l & -> & Hsl).
    unfold FileCMap.add_code2cid. rewrite Hsl.
    assert (Hiff : leaf_on_the_way t (init ++ [l]) ↔
                   ∃ q n, q `prefix_of` init ∧ walk (Branch t) q = Some (Leaf n)).
    { split.
      - intros (q & ext & n & Heq & Hext & Hw). exists q, n. split; [|done].
        destruct (split_last_nonempty ext Hext) as (ext' & l' & -> & _).
        rewrite app_assoc in Heq. apply app_inj_tail in Heq as [-> _].
        by apply prefix_app_r.
      - intros (q & n & [k ->] & Hw). exists q, (k ++ [l]), n.
        split; [by rewrite <- app_assoc|]. split; [by destruct k|done]. }
    destruct (add_from_cases (Branch t) init l cid)
      as [(d' & Hd' & Hno)|(Hr & q & n & Hq & Hw)].
    + rewrite Hd'. simpl.
      destruct (add_from_branch _ _ _ _ _ Hd') as [m' ->].
      assert (Hnl : ¬ leaf_on_the_way t (init ++ [l])).
      { rewrite Hiff. intros (q & n & Hq & Hw). by apply (Hno q n). }
      split; [split; [done|intros H; by destruct init]|].
      split; [split; [done|intros H; by apply Hnl in H]|].
      split; [done|eauto].
    + rewrite Hr. simpl.
      assert (Hl : leaf_on_the_way t (init ++ [l])) by (apply Hiff; eauto).
      split; [split; [done|intros H; by destruct init]|].
      split; [done|]. split; [intros [t' H]; done|intros [_ H]; done].
Qed.

(** X2. When [add_code2cid code cid] returns, the map holds [code] for
    [cid]; it holds no longer code that starts with [code], whatever it
    held before; and what it holds for a code that neither starts with
    [code] nor starts [code] is unchanged. *)
Theorem add_code2cid_lookups (code : list byte) (cid : Z)
    (t t' : gmap Z node) :
  FileCMap.add_code2cid code cid t = Ok t' →
  walk (Branch t') code = Some (Leaf cid) ∧
  (∀ ext, ext ≠ [] → walk (Branch t') (code ++ ext) = None) ∧
  (∀ p, ¬ code `prefix_of` p → ¬ p `prefix_of` code →
        walk (Branch t') p = walk (Branch t) p).
Proof.
  unfold FileCMap.add_code2cid.
  destruct (split_last code) as [[init l]|] eqn:Hsl; [|done].
  apply split_last_Some in Hsl as ->.
  destruct (FileCMap.add_from (Branch t) init l cid) as [d'|] eqn:Hd'; [|done].
  simpl. destruct d' as [|m']; [done|]. intros [= <-].
  pose proof (add_from_walk_same _ _ _ _ _ Hd') as Hsame.
  split; [done|]. split.
  - intros ext Hext. rewrite walk_app, Hsame. simpl. by destruct ext.
  - intros p H1 H2. by eapply add_from_walk_other.
Qed.

Lemma add_code2cid_lookups_witness :
  ∃ t',
    FileCMap.add_code2cid [x81] 7 {[ 129 := Branch {[ 64 := Leaf 5 ]} ]}
    = Ok t' ∧
    walk (Branch t') [x81] = Some (Leaf 7) ∧
    walk (Branch t') [x81; x40] = None.
Proof.
  eexists. split; [reflexivity|].
  destruct (add_code2cid_lookups [x81] 7
              {[ 129 := Branch {[ 64 := Leaf 5 ]} ]} _ eq_refl)
    as (H1 & H2 & _).
  split; [exact H1|]. exact (H2 [x40] ltac:(discriminate)).
Defined.

(** X3. After [add_code2cid code cid] has returned, decoding any input
    that starts with [code] emits [cid] first and goes on with the rest
    from the root, whatever the map held before. *)
Theorem add_then_decode (code rest : list byte) (cid : Z)
    (t t' : gmap Z node) :
  FileCMap.add_code2cid code cid t = Ok t' →
  CMap.decode t' (code ++ rest) = cons cid <$> CMap.decode t' rest.
Proof.
  intros Hadd.
  pose proof (add_code2cid_nonempty _ _ _ _ Hadd) as Hne.
  unfold FileCMap.add_code2cid in Hadd.
  destruct (split_last code) as [[init l]|] eqn:Hsl; [|done].
  apply split_last_Some in Hsl as ->.
  destruct (FileCMap.add_from (Branch t) init l cid) as [d'|] eqn:Hd'; [|done].
  simpl in Hadd. destruct d' as [|m']; [done|]. injection Hadd as <-.
  unfold CMap.decode. apply decode_from_walk; [done|].
  by eapply add_from_walk_same.
Qed.

Lemma add_then_decode_witness :
  ∃ t',
    FileCMap.add_code2cid [x81; x40] 633 {[ 32 := Leaf 1 ]} = Ok t' ∧
    CMap.decode t' ([x81; x40] ++ [x20]) = Ok [633; 1].
Proof.
  destruct (FileCMap.add_code2cid [x81; x40] 633 {[ 32 := Leaf 1 ]})
    as [t'|] eqn:E; [|by vm_compute in E].
  pose proof (add_then_decode [x81; x40] [x20] 633 _ t' E) as H.
  exists t'. split; [done|]. rewrite H.
  vm_compute in E. injection E as <-. reflexivity.
Defined.

(** ** [CMap.decode]: what it emits *)

Lemma decode_from_sound root : ∀ code d p out,
  walk (Branch root) p = Some d →
  CMap.decode_from root d code = Ok out →
  (length out <= length code)%nat ∧
  Forall (fun cid => ∃ c, c ≠ [] ∧ walk (Branch root) c = Some (Leaf cid)) out.
Proof.
  induction code as [|c code IH]; intros d p out Hp Hdec.
  - simpl in Hdec. injection Hdec as <-. split; [done|constructor].
  - simpl in Hdec. destruct d as [|m]; [done|].
    destruct (m !! ord c) as [[cid|m']|] eqn:Em.
    + destruct (CMap.decode_from root (Branch root) code) as [out'|] eqn:E;
        [|done].
      simpl in Hdec. injection Hdec as <-.
      destruct (IH (Branch root) [] out' eq_refl E) as [Hlen Hall].
      split; [simpl; lia|]. constructor; [|done].
      exists (p ++ [c]). split; [by destruct p|].
      rewrite walk_app, Hp. simpl. by rewrite Em.
    + destruct (IH (Branch m') (p ++ [c]) out) as [Hlen Hall]; [|done|].
      * rewrite walk_app, Hp. simpl. by rewrite Em.
      * split; [simpl; lia|done].
    + destruct (IH (Branch root) [] out eq_refl Hdec) as [Hlen Hall].
      split; [simpl; lia|done].
Qed.

Lemma decode_from_total root : ∀ code m,
  ∃ cids, CMap.decode_from root (Branch m) code = Ok cids.
Proof.
  induction code as [|c code IH]; intros m; simpl; [eauto|].
  destruct (m !! ord c) as [[cid|m']|]; [|apply IH..].
  destruct (IH root) as [cids ->]. simpl. eauto.
Qed.

(** X4. [CMap.decode] emits at most one CID per input byte, and every CID
    it emits is one the map holds for some code: decoding never makes a
    CID up. *)
Theorem decode_emits_held_cids (code2cid : gmap Z node) (code : list byte) :
  ∃ out, CMap.decode code2cid code = Ok out ∧
    (length out <= length code)%nat ∧
    Forall (fun cid =>
              ∃ c, c ≠ [] ∧ walk (Branch code2cid) c = Some (Leaf cid)) out.
Proof.
  destruct (decode_from_total code2cid code code2cid) as [out Hout].
  exists out. split; [done|].
  by apply (decode_from_sound code2cid code (Branch code2cid) []).
Qed.

(** ** [endcidrange] and [endcidchar]: what they insert *)

Lemma length_be_bytes n v : length (be_bytes n v) = n.
Proof.
  revert v. induction n as [|n IH]; intros v; [done|].
  cbn [be_bytes]. rewrite length_app, IH. simpl. lia.
Qed.

Lemma ord_of_small v :
  0 <= v < 256 → ord (default x00 (Byte.of_N (Z.to_N v))) = v.
Proof.
  intros Hv. destruct (Byte.of_N (Z.to_N v)) as [b|] eqn:E.
  - apply Byte.to_of_N in E. simpl. unfold ord. rewrite E. lia.
  - apply Byte.of_N_None_iff in E. lia.
Qed.

Lemma be_value_bytes n : ∀ v,
  0 <= v < 256 ^ Z.of_nat n → be_value (be_bytes n v) = v.
Proof.
  induction n as [|n IH]; intros v Hv.
  - simpl in Hv. unfold be_value. simpl. lia.
  - cbn [be_bytes]. rewrite be_value_snoc.
    replace (Z.of_nat (S n)) with (Z.of_nat n + 1) in Hv by lia.
    rewrite Z.pow_add_r in Hv by lia. change (256 ^ 1) with 256 in Hv.
    rewrite IH, ord_of_small.
    + pose proof (Z.div_mod v 256). lia.
    + apply Z.mod_pos_bound. lia.
    + split; [apply Z.div_pos; lia|apply Z.div_lt_upper_bound; lia].
Qed.

Lemma low_bytes_of_packed n v :
  (1 <= n <= 4)%nat → 0 <= v < 256 ^ Z.of_nat n →
  neg_slice_from n (be_bytes 4 v) = be_bytes n v.
Proof.
  intros Hn Hv. unfold neg_slice_from. destruct n as [|n']; [lia|].
  set (n := S n') in *.
  replace 4%nat with ((4 - n) + n)%nat at 1 by lia.
  rewrite be_bytes_pad by done. unfold last_n.
  rewrite length_app, length_replicate, length_be_bytes.
  replace (4 - n + n - n)%nat with (length (replicate (4 - n) x00))
    by (rewrite length_replicate; lia).
  apply drop_app_length.
Qed.

Lemma range_NoDup a b : NoDup (range a b).
Proof.
  unfold range. apply NoDup_fmap_2; [|apply NoDup_seq].
  intros i j H. lia.
Qed.

Lemma elem_of_range a b i : i ∈ range a b ↔ a <= i < b.
Proof.
  unfold range. rewrite list_elem_of_fmap. split.
  - intros (j & -> & Hj). apply elem_of_seq in Hj. lia.
  - intros Hi. exists (Z.to_nat (i - a)). split; [lia|].
    apply elem_of_seq. lia.
Qed.

Lemma split_code_value s :
  s ≠ [] →
  s = but_last_n 4 s ++ be_bytes (length (last_n 4 s)) (nunpack (last_n 4 s)).
Proof.
  intros _. unfold nunpack. rewrite be_bytes_value.
  unfold but_last_n, last_n. by rewrite take_drop.
Qed.

(** X5. [endcidrange] with one group [<s> <e> cid], [s] and [e] of the same
    length with the same bytes before their last four, on an empty map:
    the handler returns and, for every [i] from 0 to [e1 - s1], the code
    made of the common prefix and of [s1 + i] written on the bytes of the
    variable part decodes to [cid + i]; [s] itself is the code of [i = 0]. *)
Theorem cidrange_expansion (s e : list byte) (cid : Z)
    (b : option (list bfrange)) (accepted dropped : list bfrange) :
  let prefix := but_last_n 4 s in
  let vlen := length (last_n 4 s) in
  let s1 := nunpack (last_n 4 s) in
  let e1 := nunpack (last_n 4 e) in
  s ≠ [] → length s = length e → but_last_n 4 s = but_last_n 4 e →
  ∃ t,
    CMapParser.do_ENDCIDRANGE [PSStr s; PSStr e; PSInt cid]
      (CMapParser.Mk (MkFileCMap ∅ b) accepted dropped)
    = Ok (CMapParser.Mk (MkFileCMap t b) accepted dropped) ∧
    (∀ i, 0 <= i <= e1 - s1 →
       CMap.decode t (prefix ++ be_bytes vlen (s1 + i)) = Ok [cid + i]) ∧
    s = prefix ++ be_bytes vlen (s1 + 0).
Proof.
  intros prefix vlen s1 e1 Hne Hlen Hpre.
  assert (Hvlen : (1 <= vlen <= 4)%nat).
  { unfold vlen, last_n. rewrite length_drop. destruct s; [done|]. simpl. lia. }
  assert (Hvlen_e : length (last_n 4 e) = vlen).
  { unfold vlen, last_n. rewrite !length_drop. lia. }
  assert (Hs1 : 0 <= s1) by apply be_value_bound.
  assert (He1 : e1 < 256 ^ Z.of_nat vlen).
  { rewrite <- Hvlen_e. apply be_value_bound. }
  set (pairs := (fun i => (prefix ++ be_bytes vlen (s1 + i), cid + i))
                <$> xrange (e1 - s1 + 1)).
  assert (Hgroup :
    CMapParser.cidrange_group [PSStr s; PSStr e; PSInt cid] (MkFileCMap ∅ b)
    = t ← add_all pairs ∅; Ok (MkFileCMap t b)).
  { rewrite cidrange_group_add_all by done. fold prefix vlen s1 e1.
    f_equal. f_equal. unfold pairs. apply list_fmap_ext. intros k i Hi.
    apply list_elem_of_lookup_2, elem_of_range in Hi.
    by rewrite low_bytes_of_packed by lia. }
  destruct (add_all_holds pairs ∅ [] holds_exactly_empty)
    as (t & Ht & [Hin _]).
  - simpl. unfold pairs. rewrite <- list_fmap_compose.
    apply NoDup_fmap_2_strong; [|apply range_NoDup].
    intros i j Hi Hj Heq. simpl in Heq.
    apply elem_of_range in Hi, Hj. apply app_inv_head in Heq.
    apply (f_equal be_value) in Heq.
    rewrite !be_value_bytes in Heq by lia. lia.
  - simpl. intros c1 c2 H1 H2 Hp. apply prefix_length_eq; [done|].
    unfold pairs in H1, H2. rewrite <- list_fmap_compose in H1, H2.
    apply list_elem_of_fmap in H1 as (i & -> & _).
    apply list_elem_of_fmap in H2 as (j & -> & _).
    simpl. rewrite !length_app, !length_be_bytes. lia.
  - simpl. apply Forall_forall. intros c Hc.
    unfold pairs in Hc. rewrite <- list_fmap_compose in Hc.
    apply list_elem_of_fmap in Hc as (i & -> & _). simpl.
    intros Heq. apply (f_equal length) in Heq.
    rewrite length_app, length_be_bytes in Heq. simpl in Heq. lia.
  - exists t. split; [|split].
    + unfold CMapParser.do_ENDCIDRANGE.
      change (choplist 3 [PSStr s; PSStr e; PSInt cid])
        with [[PSStr s; PSStr e; PSInt cid]].
      cbn [for_each CMapParser.cmap]. rewrite Hgroup, Ht. done.
    + intros i Hi.
      pose proof (decode_concat t [(prefix ++ be_bytes vlen (s1 + i), cid + i)])
        as Hdec.
      simpl in Hdec. rewrite app_nil_r in Hdec. apply Hdec.
      intros code c Hel. apply list_elem_of_singleton in Hel.
      injection Hel as -> ->. split.
      * intros Heq. apply (f_equal length) in Heq.
        rewrite length_app, length_be_bytes in Heq. simpl in Heq. lia.
      * apply Hin. simpl. unfold pairs. apply list_elem_of_fmap.
        exists i. split; [done|]. apply elem_of_range. lia.
    + rewrite Z.add_0_r. by apply split_code_value.
Qed.

Lemma cidrange_expansion_witness :
  ∃ t,
    CMapParser.do_ENDCIDRANGE [PSStr [x81; x40]; PSStr [x81; x7e]; PSInt 633]
      (CMapParser.Mk (MkFileCMap ∅ None) [] [])
    = Ok (CMapParser.Mk (MkFileCMap t None) [] []) ∧
    CMap.decode t [x81; x41] = Ok [634].
Proof.
  destruct (cidrange_expansion [x81; x40] [x81; x7e] 633 None [] [])
    as (t & Ht & Hdec & _); [done..|].
  exists t. split; [exact Ht|]. apply (Hdec 1).
  clear Ht Hdec. vm_compute. split; discriminate.
Defined.

(** X6. A group of [endcidrange] whose strings differ in length, or in the
    bytes before their last four, or whose end value is below its start
    value, inserts nothing and raises nothing: a reversed range is an empty
    range. *)
Theorem cidrange_group_skips {M : Type} `{!CMapBase M}
    (s e : list byte) (cid : Z) (m : M) :
  length s ≠ length e ∨ but_last_n 4 s ≠ but_last_n 4 e ∨
    nunpack (last_n 4 e) < nunpack (last_n 4 s) →
  CMapParser.cidrange_group [PSStr s; PSStr e; PSInt cid] m = Ok m.
Proof.
  intros H. unfold CMapParser.cidrange_group.
  case_bool_decide as Hlen; [done|].
  case_bool_decide as Hpre; [done|].
  destruct H as [H|[H|H]]; [done..|].
  unfold xrange. rewrite range_nil by lia. done.
Qed.

Lemma cidrange_group_skips_witness :
  CMapParser.cidrange_group [PSStr [x00; x09]; PSStr [x00; x02]; PSInt 10]
    (MkFileCMap {[ 0 := Leaf 1 ]} None)
  = Ok (MkFileCMap {[ 0 := Leaf 1 ]} None).
Proof.
  apply (cidrange_group_skips [x00; x09] [x00; x02] 10).
  right. right. by vm_compute.
Defined.

Lemma for_each_unchanged {A S} (body : A → S → result S) (xs : list A) (st : S) :
  Forall (fun x => body x st = Ok st) xs → for_each body xs st = Ok st.
Proof.
  induction 1 as [|x xs Hx _ IH]; simpl; [done|]. by rewrite Hx.
Qed.

(** X7. [endcidchar] inserts a pair only when both of its operands are
    strings: a block of pairs written [<code> cid], the code with an integer
    CID, leaves the map as it was. *)
Theorem do_ENDCIDCHAR_integer_cids {M : Type} `{!CMapBase M}
    (entries : list (list byte * Z)) (p : CMapParser.t M) :
  CMapParser.do_ENDCIDCHAR (entries ≫= fun e => [PSStr e.1; PSInt e.2]) p
  = Ok p.
Proof.
  unfold CMapParser.do_ENDCIDCHAR. rewrite choplist_pairs.
  rewrite for_each_unchanged; [by destruct p|].
  apply Forall_fmap, Forall_forall. intros e _. done.
Qed.

(** ** [IdentityCMap.decode]: values and round trip *)

Lemma be16_values_bounds s : Forall (fun v => 0 <= v < 65536) (be16_values s).
Proof.
  assert (H : ∀ n s, (length s <= n)%nat →
                Forall (fun v => 0 <= v < 65536) (be16_values s)).
  { clear s. induction n as [|n IH]; intros s Hn.
    - destruct s; [constructor|simpl in Hn; lia].
    - destruct s as [|hi [|lo s]]; [constructor..|].
      cbn [be16_values]. constructor.
      + pose proof (ord_range hi). pose proof (ord_range lo). lia.
      + apply IH. simpl in Hn. lia. }
  by apply (H (length s)).
Qed.

Lemma be16_values_packed vs :
  Forall (fun v => 0 <= v < 65536) vs → be16_values (vs ≫= be_bytes 2) = vs.
Proof.
  induction 1 as [|v vs Hv _ IH]; [done|].
  rewrite bind_cons. set (rest := vs ≫= be_bytes 2) in *.
  cbn [be_bytes app be16_values]. rewrite IH. f_equal.
  rewrite !ord_of_small.
  - rewrite (Z.mod_small (v / 256)).
    + pose proof (Z.div_mod v 256). lia.
    + split; [apply Z.div_pos; lia|apply Z.div_lt_upper_bound; lia].
  - apply Z.mod_pos_bound. lia.
  - apply Z.mod_pos_bound. lia.
Qed.

(** X8. The identity map decodes what two-byte big-endian packing writes:
    for CIDs between 0 and 65535, decoding the concatenation of their
    two-byte forms gives the CIDs back; and whatever [decode] returns lies
    between 0 and 65535. *)
Theorem identity_decode_round_trip :
  (∀ vs, Forall (fun v => 0 <= v < 65536) vs →
         IdentityCMap.decode (vs ≫= be_bytes 2) = Ok vs) ∧
  (∀ code out, IdentityCMap.decode code = Ok out →
               Forall (fun v => 0 <= v < 65536) out).
Proof.
  split.
  - intros vs Hvs. unfold IdentityCMap.decode, unpack_H.
    assert (Hlen : length (vs ≫= be_bytes 2) = (2 * length vs)%nat).
    { clear Hvs. induction vs as [|v vs IH]; [done|].
      rewrite bind_cons, length_app, IH, length_be_bytes. simpl. lia. }
    rewrite Hlen. replace (2 * length vs)%nat with (length vs * 2)%nat by lia.
    rewrite Nat.div_mul by lia.
    case_bool_decide as Hn.
    + rewrite bool_decide_eq_true_2 by lia. by rewrite be16_values_packed.
    + destruct vs; [done|simpl in Hn; lia].
  - intros code out. unfold IdentityCMap.decode, unpack_H.
    repeat case_bool_decide; intros [= <-];
      [apply be16_values_bounds|constructor].
Qed.

Lemma identity_decode_round_trip_witness :
  IdentityCMap.decode ([0x41; 0x3042; 65535] ≫= be_bytes 2)
  = Ok [0x41; 0x3042; 65535].
Proof.
  apply (proj1 identity_decode_round_trip).
  repeat constructor; lia.
Defined.

(** ** [get_unicode_charset_entry]: one block per code *)

Lemma unicode_charset_map_disjoint :
  Forall (fun a : Z * Z =>
            Forall (fun b : Z * Z => a = b ∨ a.2 < b.1 ∨ b.2 < a.1)
              unicode_charset_map)
    unicode_charset_map.
Proof. refine (bool_decide_unpack _ _). by vm_compute. Qed.

Lemma find_charset_complete code tbl item :
  item ∈ tbl → item.1 <= code <= item.2 → is_Some (find_charset code tbl).
Proof.
  induction tbl as [|x tbl IH]; intros Hel Hc; [by apply elem_of_nil in Hel|].
  simpl. case_bool_decide as Hx; [eauto|].
  apply elem_of_cons in Hel as [->|Hel]; [done|]. by apply IH.
Qed.

Lemma charset_entry_iff code item :
  get_unicode_charset_entry code = Some item
  ↔ item ∈ unicode_charset_map ∧ item.1 <= code <= item.2.
Proof.
  split; [apply find_charset_Some|].
  intros [Hel Hc].
  destruct (find_charset_complete code _ item Hel Hc) as [item' Hf].
  unfold get_unicode_charset_entry. rewrite Hf. f_equal.
  apply find_charset_Some in Hf as [Hel' Hc'].
  pose proof unicode_charset_map_disjoint as Hd.
  rewrite Forall_forall in Hd. specialize (Hd item' Hel').
  rewrite Forall_forall in Hd. specialize (Hd item Hel).
  destruct Hd as [?|[?|?]]; [done|lia..].
Qed.

(** X9. [get_unicode_charset_entry] returns the one block of the table
    that contains the code: an entry is returned exactly when it is in the
    table and holds the code. No block is returned below 0 or above
    0xFFFF. *)
Theorem charset_entry_unique (code : Z) :
  (∀ item, get_unicode_charset_entry code = Some item
           ↔ item ∈ unicode_charset_map ∧ item.1 <= code <= item.2) ∧
  (code < 0 ∨ 0xffff < code → get_unicode_charset_entry code = None).
Proof.
  split; [apply charset_entry_iff|].
  intros Hout. destruct (get_unicode_charset_entry code) as [item|] eqn:E;
    [|done].
  apply charset_entry_bounds in E. lia.
Qed.

(** ** The resource cache: [get_cmap] and [get_unicode_map] *)

(** X10. Once [get_cmap(name)] has returned a store, every later call for
    that name returns the same store from the cache, looks no resource
    file up and leaves the cache as it is, whatever the resource
    directories have become. *)
Theorem get_cmap_cached (resources resources' : gmap string CMapDB.module_data)
    (cache cache' : gmap string CMapDB.cmap_obj) (name : string)
    (cmap : CMapDB.cmap_obj) (reads : list string) :
  CMapDB.get_cmap resources cache name = (Ok cmap, cache', reads) →
  CMapDB.get_cmap resources' cache' name = (Ok cmap, cache', []).
Proof.
  unfold CMapDB.get_cmap.
  case_bool_decide; [by intros [= <- <- _]|].
  case_bool_decide; [by intros [= <- <- _]|].
  destruct (cache !! name) as [c|] eqn:Ec.
  - intros [= <- <- _]. by rewrite Ec.
  - unfold CMapDB._load_data. destruct (resources !! name) as [data|]; [|done].
    intros [= <- <- _]. by rewrite lookup_insert_eq.
Qed.

Lemma get_cmap_cached_witness :
  let data := CMapDB.ModuleData {[ 32 := Leaf 1 ]} true in
  let cmap := CMapDB.PyCMap "H" {[ 32 := Leaf 1 ]} 1 in
  CMapDB.get_cmap {[ "H"%string := data ]} ∅ "H" = (Ok cmap, {[ "H"%string := cmap ]}, ["H"%string]) ∧
  CMapDB.get_cmap ∅ {[ "H"%string := cmap ]} "H" = (Ok cmap, {[ "H"%string := cmap ]}, []).
Proof.
  intros data cmap. split; [reflexivity|].
  apply (get_cmap_cached {[ "H"%string := data ]} ∅ ∅ _ "H" cmap ["H"%string]).
  reflexivity.
Defined.


(** X12. Once [get_unicode_map(name, vertical)] has returned, the two maps
    of the resource are cached together: a later call with either flag
    looks no file up, leaves the cache as it is, and returns the map built
    from the vertical table for [True] and from the horizontal one for
    [False], the very map of the first call when the flag is the same. *)
Theorem get_unicode_map_cached
    (resources resources' : gmap string UnicodeMapDB.module_data)
    (cache cache' : gmap string
                      (UnicodeMapDB.PyUnicodeMap * UnicodeMapDB.PyUnicodeMap))
    (name : string) (vertical : bool) (umap : UnicodeMapDB.PyUnicodeMap)
    (reads : list string) :
  UnicodeMapDB.get_unicode_map resources cache name vertical
    = (Ok umap, cache', reads) →
  ∃ umaps,
    cache' !! name = Some umaps ∧
    umap = UnicodeMapDB.pick umaps vertical ∧
    (∀ v, UnicodeMapDB.get_unicode_map resources' cache' name v
          = (Ok (UnicodeMapDB.pick umaps v), cache', [])) ∧
    (cache !! name = None →
       ∃ data, resources !! ("to-unicode-" +:+ name) = Some data ∧
         reads = ["to-unicode-" +:+ name] ∧
         UnicodeMapDB.pick umaps false
           = UnicodeMapDB.MkPyUnicodeMap name
               (UnicodeMapDB.CID2UNICHR_H data) 0 ∧
         UnicodeMapDB.pick umaps true
           = UnicodeMapDB.MkPyUnicodeMap name
               (UnicodeMapDB.CID2UNICHR_V data) 1).
Proof.
  unfold UnicodeMapDB.get_unicode_map.
  destruct (cache !! name) as [umaps|] eqn:Ec.
  - intros [= <- <- _]. exists umaps. rewrite Ec. done.
  - unfold UnicodeMapDB._load_data.
    destruct (resources !! _) as [data|] eqn:Er; [|done].
    intros [= <- <- <-]. eexists. rewrite lookup_insert_eq.
    split; [done|]. split; [done|]. split; [done|]. intros _.
    exists data. done.
Qed.

Lemma get_unicode_map_cached_witness :
  let data := UnicodeMapDB.ModuleData {[ 1 := UChr 65 ]} {[ 1 := UChr 66 ]} in
  let h := UnicodeMapDB.MkPyUnicodeMap "J" {[ 1 := UChr 65 ]} 0 in
  let v := UnicodeMapDB.MkPyUnicodeMap "J" {[ 1 := UChr 66 ]} 1 in
  UnicodeMapDB.get_unicode_map {[ "to-unicode-J"%string := data ]} ∅ "J" false
  = (Ok h, {[ "J"%string := (h, v) ]}, ["to-unicode-J"%string]) ∧
  UnicodeMapDB.get_unicode_map ∅ {[ "J"%string := (h, v) ]} "J" true
  = (Ok v, {[ "J"%string := (h, v) ]}, []).
Proof.
  intros data h v.
  assert (Hfirst :
    UnicodeMapDB.get_unicode_map {[ "to-unicode-J"%string := data ]} ∅ "J"
      false
    = (Ok h, {[ "J"%string := (h, v) ]}, ["to-unicode-J"%string]))
    by reflexivity.
  split; [exact Hfirst|].
  destruct (get_unicode_map_cached _ ∅ _ _ _ _ _ _ Hfirst)
    as (umaps & Hc & _ & Hget & _).
  rewrite lookup_singleton_eq in Hc. injection Hc as <-.
  exact (Hget true).
Defined.

(** ** [FileUnicodeMap.get_unichr]: what a lookup can change *)

Lemma nearest_from_sound all cid : ∀ items prev it,
  (∀ p, prev = Some p → p ∈ all) → (∀ x, x ∈ items → x ∈ all) →
  FileUnicodeMap.nearest_from all cid prev items = Some it →
  it ∈ all ∧ FileUnicodeMap.is_same_charset cid it = true.
Proof.
  induction items as [|item items IH]; intros prev it Hprev Hitems H.
  - simpl in H. destruct (last all) as [l|] eqn:El; [|done].
    destruct (FileUnicodeMap.is_same_charset cid l) eqn:Es; [|done].
    injection H as <-. split; [|done].
    apply last_Some in El as [l' ->]. apply elem_of_app. right. by left.
  - simpl in H. case_bool_decide as Hlt.
    + assert (Hitem : item ∈ all) by (apply Hitems; by left).
      destruct prev as [p|].
      * assert (Hp : p ∈ all) by (by apply Hprev).
        destruct (FileUnicodeMap.is_same_charset cid p) eqn:Esp,
                 (FileUnicodeMap.is_same_charset cid item) eqn:Esi;
          simpl in H; try done.
        -- case_bool_decide; injection H as <-; done.
        -- injection H as <-. done.
        -- injection H as <-. done.
      * destruct (FileUnicodeMap.is_same_charset cid item) eqn:Esi; [|done].
        injection H as <-. done.
    + apply (IH (Some item) it); [| |done].
      * intros p [= <-]. apply Hitems. by left.
      * intros x Hx. apply Hitems. by right.
Qed.

Section GetUnichr.
Context (name2unicode : string → result utext).

(** X13. A CID of the direct table is answered from the table, whatever
    the index holds, and the map is not changed; a text stored by
    [add_cid2unichr] is what the next [get_unichr] of that CID returns; and
    with an empty index a CID absent from the table raises [KeyError]. *)
Theorem get_unichr_direct (m : FileUnicodeMap.t) (cid : Z) :
  (∀ u, FileUnicodeMap.cid2unichr m !! cid = Some u →
        FileUnicodeMap.get_unichr name2unicode m cid = Ok (u, m)) ∧
  (∀ s m', FileUnicodeMap.add_cid2unichr name2unicode cid (PSStr s) m = Ok m' →
           FileUnicodeMap.get_unichr name2unicode m' cid
           = Ok (UDecode s, m')) ∧
  (FileUnicodeMap.cid2unichr m !! cid = None →
   FileUnicodeMap.bfranges m = [] →
   FileUnicodeMap.get_unichr name2unicode m cid = Raise KeyError).
Proof.
  assert (Hdirect : ∀ (m : FileUnicodeMap.t) u,
            FileUnicodeMap.cid2unichr m !! cid = Some u →
            FileUnicodeMap.get_unichr name2unicode m cid = Ok (u, m)).
  { intros m0 u Hu. unfold FileUnicodeMap.get_unichr.
    rewrite bool_decide_eq_false_2 by (by rewrite Hu). simpl.
    unfold FileUnicodeMap.base_get_unichr. by rewrite Hu. }
  split; [apply Hdirect|]. split.
  - intros s m' [= <-]. apply Hdirect. simpl. apply lookup_insert_eq.
  - intros Habs Hnil. unfold FileUnicodeMap.get_unichr.
    rewrite bool_decide_eq_true_2 by done.
    unfold FileUnicodeMap.get_nearest_bfrange. rewrite Hnil. simpl.
    unfold FileUnicodeMap.base_get_unichr. by rewrite Habs.
Qed.

(** X14. A [get_unichr] that returns never touches the index, never changes
    or removes an entry of the direct table, and adds at most the entry of
    the CID asked for, which holds the text returned. *)
Theorem get_unichr_frame (m m' : FileUnicodeMap.t) (cid : Z) (u : utext) :
  FileUnicodeMap.get_unichr name2unicode m cid = Ok (u, m') →
  FileUnicodeMap.bfranges m' = FileUnicodeMap.bfranges m ∧
  FileUnicodeMap.cid2unichr m' !! cid = Some u ∧
  (∀ c v, FileUnicodeMap.cid2unichr m !! c = Some v →
          FileUnicodeMap.cid2unichr m' !! c = Some v) ∧
  (∀ c, c ≠ cid →
        FileUnicodeMap.cid2unichr m' !! c = FileUnicodeMap.cid2unichr m !! c).
Proof.
  unfold FileUnicodeMap.get_unichr. case_bool_decide as Habs.
  - destruct (FileUnicodeMap.get_nearest_bfrange m cid) as [item|].
    + unfold FileUnicodeMap.add_cid2unichr, unichr.
      case_bool_decide; [|done]. simpl.
      unfold FileUnicodeMap.base_get_unichr. simpl.
      rewrite lookup_insert_eq. intros [= <- <-]. simpl.
      split; [done|]. split; [apply lookup_insert_eq|]. split.
      * intros c v Hc. rewrite lookup_insert_ne; [done|]. intros <-. congruence.
      * intros c Hc. by rewrite lookup_insert_ne.
    + simpl. unfold FileUnicodeMap.base_get_unichr. by rewrite Habs.
  - simpl. unfold FileUnicodeMap.base_get_unichr.
    destruct (FileUnicodeMap.cid2unichr m !! cid) as [v|] eqn:Ev; [|done].
    intros [= <- <-]. done.
Qed.

(** X15. Whatever the index holds, sorted or not: when [get_unichr]
    returns for a CID absent from the direct table, the text is
    [unichr(cid + off)] for an entry of the index, and the scalar
    [cid + off] lies in the block of the Unicode block table that holds the
    base of that entry. Extrapolation never leaves the block of the entry
    it extends. *)
Theorem get_unichr_same_block (m m' : FileUnicodeMap.t) (cid : Z) (u : utext) :
  FileUnicodeMap.cid2unichr m !! cid = None →
  FileUnicodeMap.get_unichr name2unicode m cid = Ok (u, m') →
  ∃ item block,
    item ∈ FileUnicodeMap.bfranges m ∧
    u = UChr (cid + off item) ∧
    block ∈ unicode_charset_map ∧
    block.1 <= cid + off item <= block.2 ∧
    block.1 <= target_ucode item <= block.2.
Proof.
  intros Habs. unfold FileUnicodeMap.get_unichr.
  rewrite bool_decide_eq_true_2 by done.
  destruct (FileUnicodeMap.get_nearest_bfrange m cid) as [item|] eqn:En.
  - unfold FileUnicodeMap.get_nearest_bfrange in En.
    apply nearest_from_sound in En as [Hin Hsame]; [|done..].
    unfold FileUnicodeMap.add_cid2unichr, unichr.
    case_bool_decide; [|done]. simpl.
    unfold FileUnicodeMap.base_get_unichr. simpl. rewrite lookup_insert_eq.
    intros [= <- _].
    unfold FileUnicodeMap.is_same_charset in Hsame.
    destruct (get_unicode_charset_entry (cid + off item)) as [block|] eqn:Eb;
      [|done].
    apply bool_decide_eq_true in Hsame.
    apply find_charset_Some in Eb as [Hel Hc].
    exists item, block. done.
  - simpl. unfold FileUnicodeMap.base_get_unichr. by rewrite Habs.
Qed.

End GetUnichr.

Lemma get_unichr_frame_witness :
  let m := FileUnicodeMap.Mk {[ 3 := UChr 103 ]}
             [BFRange 0 14 100 100; BFRange 100 135 40 (-60)] in
  ∃ m', FileUnicodeMap.get_unichr (fun _ => Raise KeyError) m 20
        = Ok (UChr 120, m') ∧
        FileUnicodeMap.cid2unichr m' !! 3 = Some (UChr 103) ∧
        FileUnicodeMap.bfranges m' = FileUnicodeMap.bfranges m.
Proof.
  intros m. eexists. split; [reflexivity|].
  destruct (get_unichr_frame (fun _ => Raise KeyError) m _ 20 (UChr 120) eq_refl)
    as (Hb & _ & Hkeep & _).
  split; [apply Hkeep; reflexivity|exact Hb].
Defined.

Lemma get_unichr_same_block_witness :
  let m := FileUnicodeMap.Mk {[ 3 := UChr 103 ]}
             [BFRange 100 135 110 10; BFRange 0 14 100 100] in
  ∃ item block,
    item ∈ FileUnicodeMap.bfranges m ∧
    UChr 30 = UChr (20 + off item) ∧
    block ∈ unicode_charset_map ∧
    block.1 <= 20 + off item <= block.2 ∧
    block.1 <= target_ucode item <= block.2.
Proof.
  intros m.
  apply (get_unichr_same_block (fun _ => Raise KeyError) m
           (FileUnicodeMap.with_cid2unichr m 20 (UChr 30)) 20 (UChr 30));
    reflexivity.
Defined.

Lemma get_unichr_direct_witness :
  let m := FileUnicodeMap.Mk {[ 3 := UChr 103 ]} [BFRange 0 14 100 100] in
  FileUnicodeMap.get_unichr (fun _ => Raise KeyError) m 3 = Ok (UChr 103, m) ∧
  FileUnicodeMap.get_unichr (fun _ => Raise KeyError)
    (FileUnicodeMap.Mk {[ 3 := UChr 103 ]} []) 4 = Raise KeyError.
Proof.
  intros m. split.
  - apply (proj1 (get_unichr_direct (fun _ => Raise KeyError) m 3)).
    reflexivity.
  - apply (proj2 (proj2 (get_unichr_direct (fun _ => Raise KeyError)
                           (FileUnicodeMap.Mk {[ 3 := UChr 103 ]} []) 4)));
      reflexivity.
Defined.
(** ** [endbfrange] and [endbfchar]: what they install *)

Lemma range_app a b c : a <= b <= c → range a c = range a b ++ range b c.
Proof.
  remember (Z.to_nat (b - a)) as n eqn:En.
  revert a En. induction n as [|n IH]; intros a En Habc.
  - replace b with a by lia. by rewrite (range_nil a a) by lia.
  - rewrite (range_cons a c), (range_cons a b) by lia.
    simpl. f_equal. apply IH; lia.
Qed.

Lemma install_loop (body : Z → FileUnicodeMap.t → result FileUnicodeMap.t)
    (h : Z → utext) (s1 a b : Z) (m : FileUnicodeMap.t) :
  (∀ i m0, a <= i < b →
     body i m0 = Ok (FileUnicodeMap.with_cid2unichr m0 (s1 + i) (h i))) →
  ∃ m',
    for_each body (range a b) m = Ok m' ∧
    FileUnicodeMap.bfranges m' = FileUnicodeMap.bfranges m ∧
    ∀ c, FileUnicodeMap.cid2unichr m' !! c
         = if bool_decide (s1 + a <= c < s1 + b) then Some (h (c - s1))
           else FileUnicodeMap.cid2unichr m !! c.
Proof.
  remember (Z.to_nat (b - a)) as n eqn:En.
  revert a m En. induction n as [|n IH]; intros a m En Hbody.
  - rewrite range_nil by lia. exists m. split; [done|]. split; [done|].
    intros c. by rewrite bool_decide_eq_false_2 by lia.
  - rewrite range_cons by lia. cbn [for_each].
    rewrite Hbody by lia. cbn [mbind result_bind].
    destruct (IH (a + 1)
                (FileUnicodeMap.with_cid2unichr m (s1 + a) (h a)))
      as (m' & Hm' & Hb & Ht); [lia|intros i m0 Hi; apply Hbody; lia|].
    exists m'. split; [done|]. split; [done|].
    intros c. rewrite Ht. simpl.
    destruct (decide (c = s1 + a)) as [->|Hne].
    + rewrite bool_decide_eq_false_2 by lia.
      rewrite bool_decide_eq_true_2 by lia.
      rewrite lookup_insert_eq. do 2 f_equal. lia.
    + rewrite lookup_insert_ne by done.
      repeat case_bool_decide; try done; lia.
Qed.

Section Install.
Context (name2unicode : string → result utext).
Import CMapParser.

(** X16. A base-form group of [endbfrange] whose admission check returns
    an end CID [e2] other than 0: the group returns, so [struct.pack]
    never fails; [e2] is the start or the end of the range; exactly the
    CIDs from [s1] to [e2] are set, the CID [c] to the text of the prefix
    of [code] followed by the packed scalar [base + (c - s1)]; that scalar
    lies in the block of the base, so no installed mapping crosses a block
    bound; the entry [(s1, e2, base, base - s1)] is recorded as accepted;
    the index and the dropped entries are not changed. *)
Theorem bfrange_group_installs (p : CMapParser.t FileUnicodeMap.t)
    (s e code : list byte) (e2 : Z) :
  let s1 := nunpack s in
  let e1 := nunpack e in
  let base := nunpack (last_n 4 code) in
  length s = length e → (length s <= 4)%nat →
  verify_char_set s1 e1 base = Some e2 → e2 ≠ 0 →
  ∃ p',
    bfrange_group (CMapBase0 := FileUnicodeMap.base name2unicode)
      [PSStr s; PSStr e; PSStr code] p = Ok p' ∧
    (e2 = s1 ∨ e2 = e1) ∧
    (∀ c, FileUnicodeMap.cid2unichr (cmap p') !! c
          = if bool_decide (s1 <= c <= e2)
            then Some (UDecode (bf_code code (c - s1)))
            else FileUnicodeMap.cid2unichr (cmap p) !! c) ∧
    (∀ c, s1 <= c <= e2 →
          get_unicode_charset_entry (base + (c - s1))
          = get_unicode_charset_entry base) ∧
    FileUnicodeMap.bfranges (cmap p') = FileUnicodeMap.bfranges (cmap p) ∧
    cmap_bfrange_items p'
      = cmap_bfrange_items p ++ [BFRange s1 e2 base (base - s1)] ∧
    drop_bfrange_items p' = drop_bfrange_items p.
Proof.
  intros s1 e1 base Hlen _ Hv He2.
  assert (Hv0 := Hv). unfold verify_char_set in Hv.
  destruct (get_unicode_charset_entry base) as [item|] eqn:Eitem; [|done].
  pose proof (charset_entry_bounds _ _ Eitem) as Hb.
  assert (Hin : ∀ c, s1 <= c <= e2 → base <= base + (c - s1) <= item.2).
  { intros c Hc. case_bool_decide; injection Hv as <-; lia. }
  destruct (install_loop
              (fun i m0 =>
                 b ← pack_L (base + i);
                 add_cid2unichr (CMapBase := FileUnicodeMap.base name2unicode)
                   (s1 + i)
                   (PSStr (but_last_n 4 code
                           ++ neg_slice_from (length (last_n 4 code)) b)) m0)
              (fun i => UDecode (bf_code code i))
              s1 0 (e2 - s1 + 1) (cmap p)) as (m' & Hm' & Hbf & Ht).
  { intros i m0 Hi. unfold pack_L.
    rewrite bool_decide_eq_true_2; [done|].
    specialize (Hin (s1 + i)). lia. }
  exists (Mk m' (cmap_bfrange_items p ++ [BFRange s1 e2 base (base - s1)])
            (drop_bfrange_items p)).
  split.
  { unfold bfrange_group.
    rewrite bool_decide_eq_false_2 by (intros H; by apply H).
    fold s1 e1 base. rewrite Hv0. cbn [truthy default].
    rewrite bool_decide_eq_true_2 by done.
    unfold xrange. change (id e2) with e2. rewrite Hm'. done. }
  cbn [cmap cmap_bfrange_items drop_bfrange_items].
  split; [case_bool_decide; injection Hv as <-; auto|].
  split.
  { intros c. rewrite Ht.
    repeat case_bool_decide; try done; lia. }
  split.
  { intros c Hc. apply charset_entry_iff.
    apply find_charset_Some in Eitem as [Hel _].
    split; [done|]. specialize (Hin c Hc). lia. }
  done.
Qed.

(** X17. A list-form group of [endbfrange], all of whose items are
    strings: with at least [e1 - s1 + 1] items the CIDs from [s1] to [e1]
    are set, in order, to the texts of the first items, the other items
    are ignored and the other CIDs are as before; with fewer items of a
    range that is not reversed the group raises [IndexError]. The list form
    passes no block check and records neither an accepted nor a dropped
    entry. *)
Theorem bfrange_group_list_form (p : CMapParser.t FileUnicodeMap.t)
    (s e : list byte) (texts : list (list byte)) :
  let s1 := nunpack s in
  let e1 := nunpack e in
  let g := [PSStr s; PSStr e; PSList (PSStr <$> texts)] in
  length s = length e → (length s <= 4)%nat →
  (e1 - s1 + 1 <= Z.of_nat (length texts) →
   ∃ m',
     bfrange_group (CMapBase0 := FileUnicodeMap.base name2unicode) g p
     = Ok (Mk m' (cmap_bfrange_items p) (drop_bfrange_items p)) ∧
     FileUnicodeMap.bfranges m' = FileUnicodeMap.bfranges (cmap p) ∧
     ∀ c, FileUnicodeMap.cid2unichr m' !! c
          = if bool_decide (s1 <= c <= e1)
            then UDecode <$> texts !! Z.to_nat (c - s1)
            else FileUnicodeMap.cid2unichr (cmap p) !! c) ∧
  (s1 <= e1 → Z.of_nat (length texts) < e1 - s1 + 1 →
   bfrange_group (CMapBase0 := FileUnicodeMap.base name2unicode) g p
   = Raise IndexError).
Proof.
  intros s1 e1 g Hlen _. split.
  - intros Hn.
    destruct (install_loop
                (fun i m0 =>
                   match (PSStr <$> texts) !! Z.to_nat i with
                   | Some c =>
                       add_cid2unichr
                         (CMapBase := FileUnicodeMap.base name2unicode)
                         (s1 + i) c m0
                   | None => Raise IndexError
                   end)
                (fun i => UDecode (default [] (texts !! Z.to_nat i)))
                s1 0 (e1 - s1 + 1) (cmap p)) as (m' & Hm' & Hbf & Ht).
    { intros i m0 Hi. rewrite list_lookup_fmap.
      destruct (lookup_lt_is_Some_2 texts (Z.to_nat i)) as [x Hx]; [lia|].
      rewrite Hx. done. }
    exists m'. split; [|split; [done|]].
    + unfold g, bfrange_group.
      rewrite bool_decide_eq_false_2 by (intros H; by apply H).
      fold s1 e1. unfold xrange. rewrite Hm'. done.
    + intros c. rewrite Ht. case_bool_decide as Hc.
      * rewrite bool_decide_eq_true_2 by lia.
        destruct (lookup_lt_is_Some_2 texts (Z.to_nat (c - s1))) as [x Hx];
          [lia|].
        rewrite Hx. done.
      * rewrite bool_decide_eq_false_2 by lia. done.
  - intros Hle Hshort.
    set (n := Z.of_nat (length texts)).
    destruct (install_loop
                (fun i m0 =>
                   match (PSStr <$> texts) !! Z.to_nat i with
                   | Some c =>
                       add_cid2unichr
                         (CMapBase := FileUnicodeMap.base name2unicode)
                         (s1 + i) c m0
                   | None => Raise IndexError
                   end)
                (fun i => UDecode (default [] (texts !! Z.to_nat i)))
                s1 0 n (cmap p)) as (m' & Hm' & _ & _).
    { intros i m0 Hi. rewrite list_lookup_fmap.
      destruct (lookup_lt_is_Some_2 texts (Z.to_nat i)) as [x Hx];
        [unfold n in Hi; lia|].
      rewrite Hx. done. }
    unfold g, bfrange_group.
    rewrite bool_decide_eq_false_2 by (intros H; by apply H).
    fold s1 e1. unfold xrange.
    assert (Hsplit : range 0 (e1 - s1 + 1)
                     = range 0 n ++ n :: range (n + 1) (e1 - s1 + 1)).
    { rewrite <- range_cons by (unfold n; lia).
      apply range_app. unfold n. lia. }
    rewrite Hsplit, for_each_app, Hm'. cbn [mbind result_bind for_each].
    rewrite list_lookup_fmap, lookup_ge_None_2; [done|].
    unfold n. lia.
Qed.

(** X18. [endbfchar] on pairs of strings, the first of at most four
    bytes, returns: each CID of a pair is set to the text of its code, with
    no block check, and the last pair of a CID wins; the other CIDs, the
    index and the accepted and dropped entries are as before. *)
Theorem do_ENDBFCHAR_last_wins (entries : list (list byte * list byte))
    (p : CMapParser.t FileUnicodeMap.t) :
  Forall (fun en => (length en.1 <= 4)%nat) entries →
  ∃ m',
    do_ENDBFCHAR (CMapBase0 := FileUnicodeMap.base name2unicode)
      (entries ≫= fun en => [PSStr en.1; PSStr en.2]) p
    = Ok (Mk m' (cmap_bfrange_items p) (drop_bfrange_items p)) ∧
    FileUnicodeMap.bfranges m' = FileUnicodeMap.bfranges (cmap p) ∧
    ∀ c, FileUnicodeMap.cid2unichr m' !! c
         = match list_find (fun en => nunpack en.1 = c) (reverse entries) with
           | Some (_, en) => Some (UDecode en.2)
           | None => FileUnicodeMap.cid2unichr (cmap p) !! c
           end.
Proof.
  intros _. unfold do_ENDBFCHAR. rewrite choplist_pairs.
  generalize (cmap p) as m.
  induction entries as [|en entries IH] using rev_ind; intros m.
  - exists m. done.
  - rewrite fmap_app, for_each_app.
    destruct (IH m) as (m1 & Hm1 & Hb1 & Ht1).
    destruct (for_each bfchar_pair _ m) as [m1'|] eqn:E; [|done].
    cbn [mbind result_bind] in Hm1. injection Hm1 as ->.
    cbn [mbind result_bind fmap list_fmap for_each bfchar_pair].
    eexists. split; [done|]. split; [done|].
    intros c. rewrite reverse_snoc. cbn [list_find].
    cbn [FileUnicodeMap.cid2unichr FileUnicodeMap.with_cid2unichr].
    case_decide as Hc.
    + simpl. rewrite Hc. by rewrite lookup_insert_eq.
    + rewrite lookup_insert_ne by done. rewrite Ht1.
      by destruct (list_find _ (reverse entries)) as [[? ?]|].
Qed.

End Install.

Lemma bfrange_group_installs_witness :
  ∃ p',
    CMapParser.bfrange_group
      (CMapBase0 := FileUnicodeMap.base (fun _ => Raise KeyError))
      [PSStr [x00; x41]; PSStr [x00; x43]; PSStr [x00; x61]]
      (CMapParser.Mk FileUnicodeMap.init [] []) = Ok p' ∧
    FileUnicodeMap.cid2unichr (CMapParser.cmap p') !! 0x42
      = Some (UDecode [x00; x62]) ∧
    FileUnicodeMap.cid2unichr (CMapParser.cmap p') !! 0x44 = None ∧
    CMapParser.cmap_bfrange_items p' = [BFRange 0x41 0x43 0x61 0x20].
Proof.
  destruct (bfrange_group_installs (fun _ => Raise KeyError)
              (CMapParser.Mk FileUnicodeMap.init [] [])
              [x00; x41] [x00; x43] [x00; x61] 0x43)
    as (p' & Hp & _ & Ht & _ & _ & Ha & _);
    [reflexivity | simpl; lia | reflexivity | lia |].
  exists p'. split; [exact Hp|].
  split; [rewrite Ht; reflexivity|]. split; [rewrite Ht; reflexivity|].
  exact Ha.
Defined.

Lemma bfrange_group_list_form_witness :
  (∃ m',
     CMapParser.bfrange_group
       (CMapBase0 := FileUnicodeMap.base (fun _ => Raise KeyError))
       [PSStr [x00; x01]; PSStr [x00; x02];
        PSList [PSStr [x00; x41]; PSStr [x26; x3a]; PSStr [x00; x43]]]
       (CMapParser.Mk FileUnicodeMap.init [] [])
     = Ok (CMapParser.Mk m' [] []) ∧
     FileUnicodeMap.cid2unichr m' !! 2 = Some (UDecode [x26; x3a]) ∧
     FileUnicodeMap.cid2unichr m' !! 3 = None) ∧
  CMapParser.bfrange_group
    (CMapBase0 := FileUnicodeMap.base (fun _ => Raise KeyError))
    [PSStr [x00; x01]; PSStr [x00; x02]; PSList [PSStr [x00; x41]]]
    (CMapParser.Mk FileUnicodeMap.init [] [])
  = Raise IndexError.
Proof.
  split.
  - destruct (proj1 (bfrange_group_list_form (fun _ => Raise KeyError)
                       (CMapParser.Mk FileUnicodeMap.init [] [])
                       [x00; x01] [x00; x02]
                       [[x00; x41]; [x26; x3a]; [x00; x43]] eq_refl
                       ltac:(simpl; lia)))
      as (m' & Hm' & _ & Ht); [vm_compute; discriminate|].
    exists m'. split; [exact Hm'|].
    split; rewrite Ht; reflexivity.
  - apply (proj2 (bfrange_group_list_form (fun _ => Raise KeyError)
                    (CMapParser.Mk FileUnicodeMap.init [] [])
                    [x00; x01] [x00; x02] [[x00; x41]] eq_refl
                    ltac:(simpl; lia)));
      vm_compute; [discriminate|reflexivity].
Defined.

Lemma do_ENDBFCHAR_last_wins_witness :
  ∃ m',
    CMapParser.do_ENDBFCHAR
      (CMapBase0 := FileUnicodeMap.base (fun _ => Raise KeyError))
      [PSStr [x00; x01]; PSStr [x00; x41];
       PSStr [x00; x02]; PSStr [x00; x43];
       PSStr [x01]; PSStr [x00; x42]]
      (CMapParser.Mk FileUnicodeMap.init [] [])
    = Ok (CMapParser.Mk m' [] []) ∧
    FileUnicodeMap.cid2unichr m' !! 1 = Some (UDecode [x00; x42]).
Proof.
  destruct (do_ENDBFCHAR_last_wins (fun _ => Raise KeyError)
              [([x00; x01], [x00; x41]); ([x00; x02], [x00; x43]);
               ([x01], [x00; x42])]
              (CMapParser.Mk FileUnicodeMap.init [] []))
    as (m' & Hm' & _ & Ht); [repeat constructor; simpl; lia|].
  exists m'. split; [exact Hm'|]. rewrite Ht. reflexivity.
Defined.

(** ** A code section fed to a Unicode map *)

Lemma cidrange_group_unicode_map (name2unicode : string → result utext)
    (g : list psobj) (m : FileUnicodeMap.t) :
  CMapParser.cidrange_group (CMapBase0 := FileUnicodeMap.base name2unicode)
    g m = Ok m.
Proof.
  destruct g as [|[ | s | | | ] [|[ | e | | | ] [|[cid | | | | ] [|? ?]]]];
    try done.
  unfold CMapParser.cidrange_group.
  case_bool_decide; [done|]. case_bool_decide; [done|].
  apply for_each_unchanged, Forall_forall. intros i Hi.
  apply elem_of_range in Hi. unfold pack_L.
  pose proof (be_value_bound (last_n 4 s)) as Hs.
  pose proof (be_value_bound (last_n 4 e)) as He.
  pose proof (last_n_length_le 4 e) as Hl.
  assert (256 ^ Z.of_nat (length (last_n 4 e)) <= 256 ^ 4)
    by (apply Z.pow_le_mono_r; lia).
  unfold nunpack in *.
  rewrite bool_decide_eq_true_2; [done|]. lia.
Qed.

(** X19. [endcidrange] on a [FileUnicodeMap] changes nothing and raises
    nothing, whatever its operands: the inherited [add_code2cid] is empty,
    and [struct.pack] cannot fail before it, since every packed value lies
    between the values of the last four bytes of the two strings, below
    [2^32]. *)
Theorem do_ENDCIDRANGE_unicode_map (name2unicode : string → result utext)
    (objs : list psobj) (p : CMapParser.t FileUnicodeMap.t) :
  CMapParser.do_ENDCIDRANGE (CMapBase0 := FileUnicodeMap.base name2unicode)
    objs p = Ok p.
Proof.
  unfold CMapParser.do_ENDCIDRANGE. rewrite for_each_unchanged.
  - by destruct p.
  - apply Forall_forall. intros g _. apply cidrange_group_unicode_map.
Qed.
(** ** The merge pass: how many entries it returns *)

Section MergeCount.
Context {M : Type} `{!CMapBase M}.
Import CMapParser.

Lemma fill_loop_count (add_to_map : bool) items :
  ∀ (st st' : fill_state M) lm prev,
  cur st = Some (lm, prev) →
  for_each (fill_step add_to_map) items st = Ok st' →
  (∃ lm' prev', cur st' = Some (lm', prev')) ∧
  (length (result_bfranges st') + merge_count prev items
   = length (result_bfranges st) + length items)%nat.
Proof.
  induction items as [|item items IH]; intros st st' lm prev Hc Hrun.
  - simpl in Hrun. injection Hrun as <-. simpl. split; [eauto|lia].
  - cbn [for_each] in Hrun.
    destruct (fill_step add_to_map item st) as [st1|] eqn:E1; [|done].
    cbn [mbind result_bind] in Hrun.
    unfold fill_step in E1. rewrite Hc in E1.
    cbn [merge_count]. unfold offset_of at 1 2.
    case_bool_decide as Hoff.
    + destruct (if add_to_map then _ else _) as [m1|]; [|done].
      cbn [mbind result_bind] in E1. injection E1 as <-.
      eapply IH in Hrun as [Hcur Hlen]; [|reflexivity].
      split; [done|]. cbn [result_bfranges] in Hlen.
      rewrite bool_decide_eq_true_2 by done. simpl. lia.
    + injection E1 as <-.
      eapply IH in Hrun as [Hcur Hlen]; [|reflexivity].
      split; [done|]. cbn [result_bfranges] in Hlen.
      rewrite length_app in Hlen.
      rewrite bool_decide_eq_false_2 by done. simpl in *. lia.
Qed.

Lemma fill_loop_no_merge (add_to_map : bool) items :
  ∀ (st : fill_state M) prev,
  cur st = Some (prev, prev) → merge_count prev items = 0%nat →
  ∃ st' x,
    for_each (fill_step add_to_map) items st = Ok st' ∧
    fill_cmap st' = fill_cmap st ∧ cur st' = Some (x, x) ∧
    result_bfranges st' ++ [x] = result_bfranges st ++ prev :: items.
Proof.
  induction items as [|item items IH]; intros st prev Hc Hm.
  - exists st, prev. done.
  - cbn [merge_count] in Hm. unfold offset_of at 1 2 in Hm.
    case_bool_decide as Hoff; [simpl in Hm; lia|].
    assert (Hstep : fill_step add_to_map item st
                    = Ok (MkFill (result_bfranges st ++ [prev])
                            (Some (item, item)) (fill_cmap st))).
    { unfold fill_step. rewrite Hc. by rewrite bool_decide_eq_false_2. }
    cbn [for_each]. rewrite Hstep. cbn [mbind result_bind].
    destruct (IH (MkFill (result_bfranges st ++ [prev]) (Some (item, item))
                    (fill_cmap st)) item eq_refl)
      as (st' & x & Hrun & Hmap & Hcur & Hres); [simpl in Hm; lia|].
    exists st', x. split; [done|]. split; [done|]. split; [done|].
    rewrite Hres. cbn [result_bfranges]. by rewrite <- app_assoc.
Qed.

(** X20. When the merge pass returns, the entries it returns and the
    merges it made add up to the entries it was given: it returns as many
    entries as it was given exactly when no entry has the offset of the
    entry before it in the order of [cid_start]. *)
Theorem fill_cmap_by_ranges_count (l merged : list bfrange)
    (add_to_map : bool) (m m' : M) :
  fill_cmap_by_ranges l add_to_map m = Ok (merged, m') →
  (length merged + merges (sorted cid_start l) = length l)%nat.
Proof.
  unfold fill_cmap_by_ranges.
  rewrite <- (Permutation_length (sorted_perm cid_start l)).
  destruct (sorted cid_start l) as [|a rest].
  - simpl. by intros [= <- _].
  - cbn [for_each fill_step cur mbind result_bind].
    destruct (for_each _ rest _) as [st'|] eqn:Erun; [|done].
    cbn [mbind result_bind]. intros [= <- _].
    eapply fill_loop_count in Erun as [(lm' & prev' & Hcur) Hlen];
      [|reflexivity].
    rewrite Hcur, length_app. cbn [result_bfranges] in Hlen.
    simpl in *. lia.
Qed.

(** X21. When no entry has the offset of the entry before it in the order
    of [cid_start], the merge pass returns the entries sorted by
    [cid_start] and leaves the map as it was, and [fixup_cmaps] changes
    nothing at all: the index is not assigned and the accepted entries are
    kept. *)
Theorem fixup_cmaps_no_merge (p : CMapParser.t M) (add_to_map : bool) :
  merges (sorted cid_start (cmap_bfrange_items p)) = 0%nat →
  fill_cmap_by_ranges (cmap_bfrange_items p) add_to_map (cmap p)
    = Ok (sorted cid_start (cmap_bfrange_items p), cmap p) ∧
  fixup_cmaps p = Ok p.
Proof.
  intros Hm.
  assert (Hfill : ∀ b,
    fill_cmap_by_ranges (cmap_bfrange_items p) b (cmap p)
    = Ok (sorted cid_start (cmap_bfrange_items p), cmap p)).
  { intros b. unfold fill_cmap_by_ranges.
    destruct (sorted cid_start (cmap_bfrange_items p)) as [|a rest];
      [done|].
    cbn [for_each fill_step cur mbind result_bind result_bfranges fill_cmap].
    destruct (fill_loop_no_merge b rest (MkFill [] (Some (a, a)) (cmap p)) a
                eq_refl Hm) as (st' & x & Hrun & Hmap & Hcur & Hres).
    rewrite Hrun. cbn [mbind result_bind]. rewrite Hcur, Hres, Hmap. done. }
  split; [apply Hfill|].
  unfold fixup_cmaps.
  destruct (cmap_bfrange_items p) as [|a items] eqn:Ei; [done|].
  cbv iota. rewrite Hfill. cbn [mbind result_bind].
  rewrite bool_decide_eq_true_2
    by apply (Permutation_length (sorted_perm cid_start _)).
  rewrite <- Ei. by destruct p.
Qed.

End MergeCount.

Lemma fill_cmap_by_ranges_count_witness :
  ∃ merged m',
    CMapParser.fill_cmap_by_ranges
      (CMapBase0 := FileUnicodeMap.base (fun _ => Raise KeyError))
      [BFRange 10 14 110 100; BFRange 100 135 40 (-60); BFRange 0 4 100 100]
      true FileUnicodeMap.init
    = Ok (merged, m') ∧
    (length merged + 1 = 3)%nat.
Proof.
  destruct (CMapParser.fill_cmap_by_ranges
              (CMapBase0 := FileUnicodeMap.base (fun _ => Raise KeyError))
              [BFRange 10 14 110 100; BFRange 100 135 40 (-60);
               BFRange 0 4 100 100]
              true FileUnicodeMap.init) as [[merged m']|] eqn:E;
    [|by vm_compute in E].
  exists merged, m'. split; [reflexivity|].
  exact (fill_cmap_by_ranges_count _ _ _ _ _ E).
Defined.

Lemma fixup_cmaps_no_merge_witness :
  let p := CMapParser.Mk (FileUnicodeMap.Mk {[ 1 := UChr 65 ]} [])
             [BFRange 100 135 40 (-60); BFRange 0 4 100 100] [] in
  CMapParser.fixup_cmaps
    (CMapBase0 := FileUnicodeMap.base (fun _ => Raise KeyError)) p = Ok p.
Proof.
  intros p.
  apply (fixup_cmaps_no_merge
           (CMapBase0 := FileUnicodeMap.base (fun _ => Raise KeyError))
           p true).
  reflexivity.
Defined.
(** ** The subset elimination of [fixup_cmaps] *)

Lemma is_subset_of_ranges_None_iff l r :
  CMapParser.is_subset_of_ranges l r = None
  ↔ ∀ x, x ∈ l → x ≠ r → ¬ contained_in r x.
Proof.
  induction l as [|y l IH]; simpl.
  - split; [|done]. intros _ x Hx. by apply elem_of_nil in Hx.
  - case_bool_decide as Hy.
    + rewrite IH. split.
      * intros H x Hx Hne. apply elem_of_cons in Hx as [->|Hx]; [done|].
        by apply H.
      * intros H x Hx. apply H. by right.
    + destruct (bool_decide (target_ucode r >= target_ucode y)
                && bool_decide (target_ucode r + cid_end r - cid_start r
                                <= target_ucode y + cid_end y - cid_start y))
        eqn:Ec.
      * split; [done|]. intros H. exfalso.
        apply andb_true_iff in Ec as [E1 E2].
        apply bool_decide_eq_true in E1, E2.
        apply (H y); [by left|done|]. unfold contained_in. lia.
      * rewrite IH. split.
        -- intros H x Hx Hne. apply elem_of_cons in Hx as [->|Hx];
             [|by apply H].
           unfold contained_in. intros [H1 H2].
           apply andb_false_iff in Ec as [Ec|Ec];
             apply bool_decide_eq_false in Ec; lia.
        -- intros H x Hx. apply H. by right.
Qed.

(** X22. [is_subset_of_ranges] returns the first entry of the list that
    differs from the given one and whose Unicode interval contains its
    interval: the entries before it are equal to the given one or do not
    contain it. It returns [None] exactly when no different entry of the
    list contains the interval; entries equal to the given one, itself or
    a duplicate, are never returned. *)
Theorem is_subset_of_ranges_first (l : list bfrange) (r : bfrange) :
  match CMapParser.is_subset_of_ranges l r with
  | Some x =>
      x ≠ r ∧ contained_in r x ∧
      ∃ pre post, l = pre ++ x :: post ∧
        Forall (fun y => y = r ∨ ¬ contained_in r y) pre
  | None => Forall (fun y => y = r ∨ ¬ contained_in r y) l
  end.
Proof.
  induction l as [|y l IH]; simpl; [constructor|].
  case_bool_decide as Hy.
  - destruct (CMapParser.is_subset_of_ranges l r) as [x|].
    + destruct IH as (Hne & Hc & pre & post & -> & Hpre).
      split; [done|]. split; [done|].
      exists (y :: pre), post. split; [done|]. constructor; [by left|done].
    + constructor; [by left|done].
  - destruct (bool_decide (target_ucode r >= target_ucode y)
              && bool_decide (target_ucode r + cid_end r - cid_start r
                              <= target_ucode y + cid_end y - cid_start y))
      eqn:Ec.
    + apply andb_true_iff in Ec as [E1 E2].
      apply bool_decide_eq_true in E1, E2.
      split; [done|]. split; [unfold contained_in; lia|].
      exists [], l. split; [done|constructor].
    + assert (Hn : ¬ contained_in r y).
      { unfold contained_in. intros [H1 H2].
        apply andb_false_iff in Ec as [Ec|Ec];
          apply bool_decide_eq_false in Ec; lia. }
      destruct (CMapParser.is_subset_of_ranges l r) as [x|].
      * destruct IH as (Hne & Hc & pre & post & -> & Hpre).
        split; [done|]. split; [done|].
        exists (y :: pre), post. split; [done|]. constructor; [by right|done].
      * constructor; [by right|done].
Qed.

(** X23. The elimination of [fixup_cmaps] keeps an entry exactly when no
    different entry of the list contains its Unicode interval. So two
    different entries with the same Unicode interval are both removed:
    neither of them reaches the index. *)
Theorem equal_intervals_both_removed (merged : list bfrange) (r x : bfrange) :
  r ∈ merged → x ∈ merged → x ≠ r →
  contained_in r x → contained_in x r →
  (∀ y, y ∈ not_subset merged
        ↔ y ∈ merged ∧ ∀ z, z ∈ merged → z ≠ y → ¬ contained_in y z) ∧
  (r ∉ not_subset merged) ∧ (x ∉ not_subset merged).
Proof.
  intros Hr Hx Hne Hrx Hxr.
  assert (Hiff : ∀ y, y ∈ not_subset merged
            ↔ y ∈ merged ∧ ∀ z, z ∈ merged → z ≠ y → ¬ contained_in y z).
  { intros y. unfold not_subset. rewrite list_elem_of_In, List.filter_In.
    rewrite <- list_elem_of_In, <- is_subset_of_ranges_None_iff.
    destruct (CMapParser.is_subset_of_ranges merged y); naive_solver. }
  split; [exact Hiff|]. split.
  - rewrite Hiff. intros [_ H]. by apply (H x).
  - rewrite Hiff. intros [_ H]. apply (H r); [done|congruence|done].
Qed.

Lemma equal_intervals_both_removed_witness :
  not_subset [BFRange 0 4 100 100; BFRange 10 14 100 90;
              BFRange 20 21 200 180]
  = [BFRange 20 21 200 180] ∧
  (BFRange 0 4 100 100)
    ∉ not_subset [BFRange 0 4 100 100; BFRange 10 14 100 90;
                  BFRange 20 21 200 180].
Proof.
  split; [reflexivity|].
  destruct (equal_intervals_both_removed
              [BFRange 0 4 100 100; BFRange 10 14 100 90;
               BFRange 20 21 200 180]
              (BFRange 0 4 100 100) (BFRange 10 14 100 90))
    as (_ & H & _); [| | | | |exact H].
  - by left.
  - right. by left.
  - discriminate.
  - unfold contained_in. simpl. lia.
  - unfold contained_in. simpl. lia.
Defined.
